(** * AllMe face service: session cache, job store and batch processor

    A shallow embedding of [face-service/main.py].  Python [int]s are [Z],
    Python [float]s are the kernel's binary64 floats, [dict]s keyed by
    strings are [gmap string _], and the wall clock ([datetime.now()]) is an
    explicit argument counted in microseconds.  The face-recognition library
    is a parameter of the batch processor. *)

From Stdlib Require Import ZArith Floats Lia.
From Stdlib Require Import Ascii.
From stdpp Require Import gmap strings list fin_maps sorting pretty.

Set Warnings "-inexact-float,-clear-no-such-hyp".
Local Open Scope Z_scope.

(** * Part I: the program *)

(** ** Python numbers *)

Module PyFloat.

(** [float(z)] for an [int]: the nearest binary64 value.  It is exact for
    [|z| < 2^53], the range of the counters handled here. *)
Definition of_int (z : Z) : float :=
  SF2Prim (binary_normalize prec emax z 0 false).

(** [a / b] on two [int]s (true division), for operands below [2^53] in
    magnitude.  CPython rounds the exact quotient once and raises
    OverflowError when it is too large for a float; below [2^53] both
    conversions are exact, so dividing the converted operands gives that
    same value and nothing is raised.  From [2^53] on the two can differ:
    statements about the computed percentage are made under
    [Vocabulary.exact_int] or on counters of a batch, which are list
    lengths. *)
Definition truediv (a b : Z) : float := (of_int a / of_int b)%float.

(** [int(x)]: truncation toward zero, for a finite [x].  On an infinity or
    a NaN Python raises (OverflowError, ValueError) where this function
    returns [0]; the percentages of counters below [2^53] are finite, so
    that case is outside the range the theorems speak of. *)
Definition to_int (x : float) : Z :=
  match Prim2SF x with
  | S754_finite s m e =>
      let a := if 0 <=? e then Z.pos m * 2 ^ e else Z.pos m / 2 ^ (- e) in
      if s then - a else a
  | _ => 0
  end.

(** [x] is a number: [x == x] holds in Python. *)
Definition is_number (x : float) : Prop := is_nan x = false.

(** [x <= y] on floats, as a proposition. *)
Definition le (x y : float) : Prop := (x <=? y)%float = true.

(** [m] is a least element of [ds]. *)
Definition is_minimum (m : float) (ds : list float) : Prop :=
  m ∈ ds /\ forall d, d ∈ ds -> le m d.

End PyFloat.

(** [len(l)] *)
Definition len {A} (l : list A) : Z := Z.of_nat (length l).

(** ** class SessionStore *)

Module SessionStore.
Section WithEncoding.
Context {ndarray : Type}.

Record SessionData := {
  encoding : ndarray;
  created_at : Z;
  last_accessed : Z
}.

(** [timedelta(hours=24)], in microseconds. *)
Definition session_ttl : Z := 24 * 3600 * 1000000.

(** [SessionData(encoding)] reads the clock twice. *)
Definition store (session_id : string) (enc : ndarray) (now1 now2 : Z)
    (sessions : gmap string SessionData) : gmap string SessionData :=
  <[session_id := {| encoding := enc; created_at := now1; last_accessed := now2 |}]> sessions.

Definition touch (now : Z) (session_data : SessionData) : SessionData :=
  {| encoding := encoding session_data;
     created_at := created_at session_data;
     last_accessed := now |}.

(** Returns the encoding ([None] when the id is missing) and the store
    after the call. *)
Definition retrieve (session_id : string) (now : Z)
    (sessions : gmap string SessionData)
    : option ndarray * gmap string SessionData :=
  match sessions !! session_id with
  | Some session_data =>
      (Some (encoding session_data),
       <[session_id := touch now session_data]> sessions)
  | None => (None, sessions)
  end.

Definition expired (now : Z) (session_data : SessionData) : bool :=
  now - last_accessed session_data >? session_ttl.

(** The ids collected by the first loop of [cleanup_expired_sessions]. *)
Definition expired_sessions (now : Z) (sessions : gmap string SessionData)
    : list string :=
  (filter (fun kv => expired now kv.2 = true) (map_to_list sessions)).*1.

Definition cleanup_expired_sessions (now : Z)
    (sessions : gmap string SessionData) : Z * gmap string SessionData :=
  let ids := expired_sessions now sessions in
  (len ids, foldl (fun m session_id => base.delete session_id m) sessions ids).

Definition delete (session_id : string) (sessions : gmap string SessionData)
    : bool * gmap string SessionData :=
  match sessions !! session_id with
  | Some _ => (true, base.delete session_id sessions)
  | None => (false, sessions)
  end.

End WithEncoding.
Arguments SessionData : clear implicits.
End SessionStore.

(** ** class JobStore *)

Module JobStore.

Record MatchResult := { index : Z; distance : float }.

Record JobStatus := {
  job_id : string;
  status : string;
  progress : Z;
  current_image : Z;
  total_images : Z;
  matches_found : Z;
  matches : list MatchResult;
  message : string;
  error : option string;
  created_at : Z
}.

(** [JobStatus(job_id, total_images)] *)
Definition new_job (id : string) (total : Z) (now : Z) : JobStatus :=
  {| job_id := id; status := "processing"; progress := 0;
     current_image := 0; total_images := total; matches_found := 0;
     matches := []; message := "Starting processing..."; error := None;
     created_at := now |}.

(** The id is the string of a fresh [uuid.uuid4()], an input here. *)
Definition create_job (uuid : string) (total : Z) (now : Z)
    (jobs : gmap string JobStatus) : string * gmap string JobStatus :=
  (uuid, <[uuid := new_job uuid total now]> jobs).

Definition get_job (id : string) (jobs : gmap string JobStatus)
    : option JobStatus := jobs !! id.

(** [int((current / total_images) * 100) if total_images > 0 else 0] *)
Definition progress_percent (current total : Z) : Z :=
  if total >? 0
  then PyFloat.to_int (PyFloat.truediv current total * PyFloat.of_int 100)%float
  else 0.

Definition progressed (current found : Z) (job : JobStatus) : JobStatus :=
  {| job_id := job_id job; status := status job;
     progress := progress_percent current (total_images job);
     current_image := current; total_images := total_images job;
     matches_found := found; matches := matches job;
     message := "Processing image " +:+ pretty current +:+ " of "
                  +:+ pretty (total_images job);
     error := error job; created_at := created_at job |}.

Definition update_progress (id : string) (current found : Z)
    (jobs : gmap string JobStatus) : gmap string JobStatus :=
  match jobs !! id with
  | Some job => <[id := progressed current found job]> jobs
  | None => jobs
  end.

Definition completed (ms : list MatchResult) (job : JobStatus) : JobStatus :=
  {| job_id := job_id job; status := "completed"; progress := 100;
     current_image := current_image job; total_images := total_images job;
     matches_found := len ms; matches := ms;
     message := "Completed! Found " +:+ pretty (len ms) +:+ " matches";
     error := error job; created_at := created_at job |}.

Definition complete_job (id : string) (ms : list MatchResult)
    (jobs : gmap string JobStatus) : gmap string JobStatus :=
  match jobs !! id with
  | Some job => <[id := completed ms job]> jobs
  | None => jobs
  end.

Definition failed (err : string) (job : JobStatus) : JobStatus :=
  {| job_id := job_id job; status := "failed"; progress := progress job;
     current_image := current_image job; total_images := total_images job;
     matches_found := matches_found job; matches := matches job;
     message := "Failed: " +:+ err;
     error := Some err; created_at := created_at job |}.

Definition fail_job (id : string) (err : string)
    (jobs : gmap string JobStatus) : gmap string JobStatus :=
  match jobs !! id with
  | Some job => <[id := failed err job]> jobs
  | None => jobs
  end.

Definition delete_job (id : string) (jobs : gmap string JobStatus)
    : bool * gmap string JobStatus :=
  match jobs !! id with
  | Some _ => (true, base.delete id jobs)
  | None => (false, jobs)
  end.

(** A job is terminal once its status is ["completed"] or ["failed"]. *)
Definition terminal (job : JobStatus) : Prop :=
  status job = "completed" \/ status job = "failed".

(** The calls the batch processor makes on the store, and their effect. *)
Inductive call :=
| UpdateProgress (id : string) (current found : Z)
| CompleteJob (id : string) (ms : list MatchResult)
| FailJob (id : string) (err : string).

Definition run_call (jobs : gmap string JobStatus) (c : call)
    : gmap string JobStatus :=
  match c with
  | UpdateProgress id current found => update_progress id current found jobs
  | CompleteJob id ms => complete_job id ms jobs
  | FailJob id err => fail_job id err jobs
  end.

Definition run_calls (cs : list call) (jobs : gmap string JobStatus)
    : gmap string JobStatus := foldl run_call jobs cs.

End JobStore.

(** ** HTTP handlers that only read the job store *)

Module Api.

Record MatchResultModel := { index : Z; distance : float }.

Record JobStatusResponse := {
  job_id : string;
  status : string;
  progress : Z;
  current_image : Z;
  total_images : Z;
  matches_found : Z;
  message : string;
  matches : option (list MatchResultModel);
  error : option string
}.

(** A handler returns its response model or raises [HTTPException]. *)
Inductive result (A : Type) :=
| Ok (a : A)
| HTTPException (status_code : Z) (detail : string).
Arguments Ok {A} a.
Arguments HTTPException {A} status_code detail.

(** Truth value of a Python list. *)
Definition truthy {A} (l : list A) : bool :=
  match l with [] => false | _ :: _ => true end.

Definition to_model (m : JobStore.MatchResult) : MatchResultModel :=
  {| index := JobStore.index m; distance := JobStore.distance m |}.

Definition matches_data (job : JobStore.JobStatus)
    : option (list MatchResultModel) :=
  if String.eqb (JobStore.status job) "completed" && truthy (JobStore.matches job)
  then Some (map to_model (JobStore.matches job))
  else None.

Definition get_job_status (id : string)
    (jobs : gmap string JobStore.JobStatus) : result JobStatusResponse :=
  match JobStore.get_job id jobs with
  | None => HTTPException 404 "Job not found"
  | Some job =>
      Ok {| job_id := JobStore.job_id job;
            status := JobStore.status job;
            progress := JobStore.progress job;
            current_image := JobStore.current_image job;
            total_images := JobStore.total_images job;
            matches_found := JobStore.matches_found job;
            message := JobStore.message job;
            matches := matches_data job;
            error := JobStore.error job |}
  end.

End Api.

(** ** The batch processor *)

Module Batch.
Import JobStore.

Section WithOracle.
Context {ndarray image_array location : Type}.

(** The external face-recognition library.  [None] stands for a raised
    exception. *)
(** [b64decode], [Image.open], [convert('RGB')], [np.array] *)
Variable load_image : string -> option image_array.
Variable face_locations : image_array -> option (list location).
Variable face_encodings : image_array -> list location -> option (list ndarray).
(** [face_recognition.face_distance([base], face)[0]] *)
Variable face_distance : ndarray -> ndarray -> float.

(** The two module-level stores. *)
Record World := {
  session_store : gmap string (SessionStore.SessionData ndarray);
  job_store : gmap string JobStatus
}.

(** One turn of the loop over [face_encodings]. *)
Definition keep_best (base_encoding : ndarray) (best_distance : float)
    (face_encoding : ndarray) : float :=
  let distance := face_distance base_encoding face_encoding in
  if ((distance <=? 0.7) && (distance <? best_distance))%float
  then distance else best_distance.

Definition best_distance (base_encoding : ndarray) (encs : list ndarray)
    : float :=
  fold_left (keep_best base_encoding) encs infinity.

(** The body of the per-image [try] up to the call of [update_progress]:
    the match list after it, or [None] when something raised. *)
Definition process_image (base_encoding : ndarray) (idx : Z)
    (image_base64 : string) (matches : list MatchResult)
    : option (list MatchResult) :=
  image_array ← load_image image_base64;
  locs ← face_locations image_array;
  if len locs >? 0 then
    encs ← face_encodings image_array locs;
    let best := best_distance base_encoding encs in
    Some (if (best <=? 0.7)%float
          then matches ++ [{| index := idx; distance := best |}]
          else matches)
  else Some matches.

(** The [for idx, image_base64 in enumerate(images)] loop from position
    [idx] on.  The loop never reads the job store, it only calls
    [update_progress] on it: the model returns those calls, in order, with
    the final match list, and [run_calls] applies them.  A raising image is
    logged and skipped by [continue], before [update_progress] is reached. *)
Fixpoint batch_loop (job_id : string) (base_encoding : ndarray)
    (images : list string) (idx : Z) (matches : list MatchResult)
    : list call * list MatchResult :=
  match images with
  | [] => ([], matches)
  | image_base64 :: rest =>
      match process_image base_encoding idx image_base64 matches with
      | Some matches' =>
          let '(calls, final) :=
            batch_loop job_id base_encoding rest (idx + 1) matches' in
          (UpdateProgress job_id (idx + 1) (len matches') :: calls, final)
      | None => batch_loop job_id base_encoding rest (idx + 1) matches
      end
  end.

(** The calls [process_batch_background] makes once the session lookup
    returned [base]. *)
Definition batch_calls (job_id : string) (base : option ndarray)
    (images : list string) : list call :=
  match base with
  | None => [FailJob job_id "Session not found"]
  | Some base_encoding =>
      let '(calls, matches) := batch_loop job_id base_encoding images 0 [] in
      calls ++ [CompleteJob job_id matches]
  end.

(** The outer [except Exception] has nothing to catch here: [retrieve],
    [fail_job], [complete_job] and [update_progress] do not raise. *)
Definition process_batch_background (job_id session_id : string)
    (images : list string) (now : Z) (w : World) : World :=
  let '(base, sessions) :=
    SessionStore.retrieve session_id now (session_store w) in
  {| session_store := sessions;
     job_store := run_calls (batch_calls job_id base images) (job_store w) |}.

(** *** The processor as a task that other requests interleave with *)

Inductive task :=
| Starting (job_id session_id : string) (images : list string)
| Looping (job_id : string) (base_encoding : ndarray) (idx : Z)
    (images : list string) (matches : list MatchResult)
| Finished.

(** One step of the task: the session lookup, one image, or the final
    [complete_job]. *)
Definition task_step (now : Z) (t : task) (w : World) : task * World :=
  match t with
  | Starting job_id session_id images =>
      let '(base, sessions) :=
        SessionStore.retrieve session_id now (session_store w) in
      match base with
      | None =>
          (Finished,
           {| session_store := sessions;
              job_store := fail_job job_id "Session not found" (job_store w) |})
      | Some base_encoding =>
          (Looping job_id base_encoding 0 images [],
           {| session_store := sessions; job_store := job_store w |})
      end
  | Looping job_id base_encoding idx [] matches =>
      (Finished,
       {| session_store := session_store w;
          job_store := complete_job job_id matches (job_store w) |})
  | Looping job_id base_encoding idx (image_base64 :: rest) matches =>
      match process_image base_encoding idx image_base64 matches with
      | Some matches' =>
          (Looping job_id base_encoding (idx + 1) rest matches',
           {| session_store := session_store w;
              job_store :=
                update_progress job_id (idx + 1) (len matches') (job_store w) |})
      | None => (Looping job_id base_encoding (idx + 1) rest matches, w)
      end
  | Finished => (Finished, w)
  end.

(** What other requests and the cleanup thread do to the session store. *)
Inductive session_op :=
| Store (session_id : string) (enc : ndarray) (now1 now2 : Z)
| Retrieve (session_id : string) (now : Z)
| Delete (session_id : string)
| Cleanup (now : Z).

Definition run_session_op (op : session_op)
    (sessions : gmap string (SessionStore.SessionData ndarray))
    : gmap string (SessionStore.SessionData ndarray) :=
  match op with
  | Store session_id enc now1 now2 =>
      SessionStore.store session_id enc now1 now2 sessions
  | Retrieve session_id now => (SessionStore.retrieve session_id now sessions).2
  | Delete session_id => (SessionStore.delete session_id sessions).2
  | Cleanup now => (SessionStore.cleanup_expired_sessions now sessions).2
  end.

Inductive action :=
| TaskStep (now : Z)
| SessionOp (op : session_op).

Definition run_action (tw : task * World) (a : action) : task * World :=
  match a with
  | TaskStep now => task_step now tw.1 tw.2
  | SessionOp op =>
      (tw.1, {| session_store := run_session_op op (session_store tw.2);
                job_store := job_store tw.2 |})
  end.

Definition run_schedule (acts : list action) (tw : task * World)
    : task * World := foldl run_action tw acts.




(** [compare_batch]: the job id it answers with, the world after it and the
    task handed to [background_tasks]. *)
Definition compare_batch (session_id : string) (images : list string)
    (now_retrieve : Z) (uuid : string) (now_create : Z) (w : World)
    : Api.result (string * string) * World * option task :=
  let '(base, sessions) :=
    SessionStore.retrieve session_id now_retrieve (session_store w) in
  match base with
  | None =>
      (Api.HTTPException 404 "Session not found",
       {| session_store := sessions; job_store := job_store w |}, None)
  | Some _ =>
      let '(job_id, jobs) :=
        create_job uuid (len images) now_create (job_store w) in
      (Api.Ok (job_id, "processing"),
       {| session_store := sessions; job_store := jobs |},
       Some (Starting job_id session_id images))
  end.

(** *** Vocabulary for the statements about the loop *)

(** The per-image [try] block raises on this image: decoding, detection or
    encoding fails. *)
Definition raises (image_base64 : string) : bool :=
  match load_image image_base64 with
  | None => true
  | Some image_array =>
      match face_locations image_array with
      | None => true
      | Some locs =>
          if len locs >? 0
          then match face_encodings image_array locs with
               | None => true
               | Some _ => false
               end
          else false
      end
  end.

(** What the inner loop knows after the distances [seen]: nothing at or
    under the threshold so far, or the least distance seen. *)
Definition tracked (best : float) (seen : list float) : Prop :=
  (best = infinity /\ forall d, d ∈ seen -> (d <=? 0.7)%float = false) \/
  (PyFloat.le best 0.7 /\ PyFloat.is_minimum best seen).

(** Entries that [n] images from position [idx] on may add: indices within
    [idx, idx + n), strictly increasing, distances at most 0.7. *)
Definition added (idx n : Z) (ext : list MatchResult) : Prop :=
  Forall (fun m => idx <= index m < idx + n /\ PyFloat.le (distance m) 0.7) ext /\
  StronglySorted (fun a b => index a < index b) ext.

(** The number of entries of [final] found up to image [i]. *)
Definition matches_so_far (final : list MatchResult) (i : Z) : Z :=
  len (filter (fun m => index m <= i) final).

(** The call expected for the image at position [ix.1]: none when the image
    raises, else [update_progress(job_id, i + 1, matches so far)]. *)
Definition progress_call (job_id : string) (final : list MatchResult)
    (ix : nat * string) : option call :=
  if raises ix.2 then None
  else Some (UpdateProgress job_id (Z.of_nat ix.1 + 1)
               (matches_so_far final (Z.of_nat ix.1))).

End WithOracle.
End Batch.

(** ** The handlers that write the session store *)

Module Handlers.

Record RegisterResponse := { success : bool }.

Section WithOracle.
Context {ndarray image_array location : Type}.
Variable load_image : string -> option image_array.
Variable face_locations : image_array -> option (list location).
Variable face_encodings : image_array -> list location -> option (list ndarray).

(** [register_face].  Both decoding [try] blocks answer 400; an exception of
    the detector or the encoder reaches the outer [except Exception] and
    answers 500. *)
Definition register_face (session_id image : string) (now1 now2 : Z)
    (sessions : gmap string (SessionStore.SessionData ndarray))
    : Api.result RegisterResponse
        * gmap string (SessionStore.SessionData ndarray) :=
  match load_image image with
  | None => (Api.HTTPException 400 "Invalid image format", sessions)
  | Some image_array =>
      match face_locations image_array with
      | None => (Api.HTTPException 500 "Internal server error", sessions)
      | Some locs =>
          if len locs =? 0 then
            (Api.HTTPException 400 "No face detected in image", sessions)
          else if len locs >? 1 then
            (Api.HTTPException 400
               "Multiple faces detected, please use image with single face",
             sessions)
          else
            match face_encodings image_array locs with
            | None => (Api.HTTPException 500 "Internal server error", sessions)
            | Some [] =>
                (Api.HTTPException 500 "Failed to extract face encoding",
                 sessions)
            | Some (face_encoding :: _) =>
                (Api.Ok {| success := true |},
                 SessionStore.store session_id face_encoding now1 now2 sessions)
            end
      end
  end.

End WithOracle.

(** [delete_session]: the body [{"success": True}] or a 404. *)
Definition delete_session {ndarray} (session_id : string)
    (sessions : gmap string (SessionStore.SessionData ndarray))
    : Api.result (list (string * bool))
        * gmap string (SessionStore.SessionData ndarray) :=
  let '(success, sessions') := SessionStore.delete session_id sessions in
  if success then (Api.Ok [("success", true)], sessions')
  else (Api.HTTPException 404 "Session not found", sessions').

End Handlers.

(** ** backend/face-api/main.py *)

Module FaceApi.

(** [s.split(sep)] for a one-character separator: never empty. *)
Fixpoint split (sep : Ascii.ascii) (s : string) : list string :=
  match s with
  | EmptyString => [EmptyString]
  | String a rest =>
      if Ascii.eqb a sep then EmptyString :: split sep rest
      else match split sep rest with
           | [] => [String a EmptyString]
           | w :: ws => String a w :: ws
           end
  end.

(** [name.split('.')[-1]] *)
Definition extension (name : string) : string :=
  List.last (split "."%char name) EmptyString.

(** A target of the request: [target.get('name')], [target.get('url')]. *)
Record Target := { name : option string; url : option string }.

Section WithLibrary.
Context {encoding : Type}.

(** [download_image], [load_image_file], [face_encodings] and [os.remove]
    for one target, from its url and the extension of its name: the
    encodings found, or [None] when one of them raised. *)
Variable target_encodings : option string -> string -> option (list encoding).
(** [face_recognition.compare_faces(known, face, tolerance)] *)
Variable compare_faces : list encoding -> encoding -> float -> list bool.

(** [any(matches)] *)
Definition any (bs : list bool) : bool := existsb id bs.

(** The loop of [find_matches] over the targets: the results appended to
    [results], or [None] when an iteration raised (a target without a name
    has no [split]; nothing catches it). *)
Fixpoint match_targets (user_encoding : encoding) (targets : list Target)
    (results : list (string * option string))
    : option (list (string * option string)) :=
  match targets with
  | [] => Some results
  | target :: rest =>
      match name target with
      | None => None
      | Some n =>
          match target_encodings (url target) (extension n) with
          | None => None
          | Some [] => match_targets user_encoding rest results
          | Some encs =>
              if any (compare_faces encs user_encoding 0.6)
              then match_targets user_encoding rest
                     (results ++ [(n, url target)])
              else match_targets user_encoding rest results
          end
      end
  end.

(** [find_matches] once the request is read and the user image encoded:
    400 without a face in the user image, else the loop from no result. *)
Definition find_matches (user_encodings : list encoding)
    (targets : list Target)
    : option (Api.result (list (string * option string))) :=
  match user_encodings with
  | [] => Some (Api.HTTPException 400 "No face found in user image")
  | user_encoding :: _ =>
      Api.Ok <$> match_targets user_encoding targets []
  end.

(** What one target contributes on its own. *)
Definition target_result (user_encoding : encoding) (target : Target)
    : option (list (string * option string)) :=
  match_targets user_encoding [target] [].

End WithLibrary.
End FaceApi.

(** ** Vocabulary for the statements of Part II *)

Module Vocabulary.
Import JobStore.

(** The percentage of [current] out of [total] is the exact floor or one
    below it, lies within 0..100 and does not fall at the next image. *)
Definition percent_ok (total current : Z) : bool :=
  let p := progress_percent current total in
  let f := current * 100 / total in
  ((p =? f) || (p =? f - 1)) && (0 <=? p) && (p <=? 100)
  && (p <=? progress_percent (current + 1) total).

(** [percent_ok] at every image of a batch of [total], with 0 percent before
    the first image and 100 at the last. *)
Definition percent_row (total : Z) : bool :=
  forallb (percent_ok total) (map Z.of_nat (seq 0 (S (Z.to_nat total))))
  && (progress_percent 0 total =? 0)
  && (progress_percent total total =? 100).


(** The [current_image] and [matches_found] arguments of the
    [update_progress] calls of a trace. *)
Definition progress_args (cs : list call) : list (Z * Z) :=
  omap (fun c => match c with
                 | UpdateProgress _ current found => Some (current, found)
                 | _ => None
                 end) cs.

(** The field of job [id], when the job is there. *)
Definition current_of (id : string) (jobs : gmap string JobStatus)
    : option Z := current_image <$> jobs !! id.

(** The ints that [float()] converts without rounding.  For [current] and
    [total_images] among them the quotient, its product with 100 and
    [int()] of it are finite, and [progress_percent] is what the code
    computes; beyond them Python may round differently or raise. *)
Definition exact_int (z : Z) : Prop := Z.abs z < 2 ^ 53.

(** The job a call addresses. *)
Definition call_id (c : call) : string :=
  match c with
  | UpdateProgress id _ _ | CompleteJob id _ | FailJob id _ => id
  end.

(** What holds of job [job_id] while its task runs over [n] images: the
    job is there and its current_image is behind the task's position. *)
Definition progress_inv {ndarray} (job_id : string) (n : Z)
    (t : @Batch.task ndarray) (jobs : gmap string JobStatus) : Prop :=
  exists job, jobs !! job_id = Some job /\
    match t with
    | Batch.Starting j _ images =>
        j = job_id /\ len images = n /\ current_image job = 0
    | Batch.Looping j _ idx rest _ =>
        j = job_id /\ 0 <= current_image job <= idx /\ idx + len rest = n
    | Batch.Finished => 0 <= current_image job <= n
    end.

End Vocabulary.

(** ** Sample data for the examples *)

Module Sample.
Import JobStore.

(** A stand-in for the face-recognition library: an image is named by a
    string, ["corrupt"] does not decode, a face is encoded by its distance
    to the registered reference. *)
Definition faces (image_array : string) : list float :=
  if String.eqb image_array "imgA" then [0.5%float]
  else if String.eqb image_array "imgC" then [0.9%float]
  else if String.eqb image_array "group" then [0.9%float; 0.5%float; 0.75%float]
  else [].

Definition load_image (image_base64 : string) : option string :=
  if String.eqb image_base64 "corrupt" then None else Some image_base64.

Definition face_locations (image_array : string) : option (list nat) :=
  Some (seq 0 (length (faces image_array))).

Definition face_encodings (image_array : string) (locs : list nat)
    : option (list float) :=
  Some (faces image_array).

Definition face_distance (base_encoding face_encoding : float) : float :=
  face_encoding.

(** Session ["s1"] registered at time 0, and a job over three images
    created for it: a match at distance 0.5, an image without a face and a
    face at distance 0.9. *)
Definition one_session : gmap string (SessionStore.SessionData float) :=
  SessionStore.store "s1" 0%float 0 0 ∅.

Definition scenario_images : list string := ["imgA"; "imgB"; "imgC"].

Definition scenario : Batch.World :=
  {| Batch.session_store := one_session;
     Batch.job_store := (create_job "job-1" 3 1 ∅).2 |}.

Definition scenario_job : JobStatus :=
  {| job_id := "job-1"; status := "completed"; progress := 100;
     current_image := 3; total_images := 3; matches_found := 1;
     matches := [{| index := 0; distance := 0.5 |}];
     message := "Completed! Found 1 matches"; error := None;
     created_at := 1 |}.

(** The session is deleted and the cache cleaned while the job runs. *)
Definition busy_schedule : list (@Batch.action float) :=
  [Batch.SessionOp (Batch.Delete "s1"); Batch.TaskStep 3;
   Batch.SessionOp (Batch.Cleanup 4); Batch.TaskStep 5;
   Batch.SessionOp (Batch.Store "s1" 1%float 6 6); Batch.TaskStep 7;
   Batch.TaskStep 8].

(** The task starts and processes the first image; then the session is
    deleted and registered anew with another encoding while the task
    processes the other two images and completes. *)
Definition first_steps : list (@Batch.action float) :=
  [Batch.TaskStep 2; Batch.TaskStep 3].

Definition later_steps : list (@Batch.action float) :=
  [Batch.SessionOp (Batch.Delete "s1"); Batch.TaskStep 4;
   Batch.SessionOp (Batch.Store "s1" 1%float 5 5); Batch.TaskStep 6;
   Batch.SessionOp (Batch.Cleanup 7); Batch.TaskStep 8].

(** A job over three images that failed on a missing session. *)
Definition failed_store : gmap string JobStatus :=
  fail_job "job-1" "Session not found" (create_job "job-1" 3 0 ∅).2.

(** A job over three images that completed with one match. *)
Definition completed_store : gmap string JobStatus :=
  complete_job "job-1" [{| index := 0; distance := 0.5 |}]
    (create_job "job-1" 3 0 ∅).2.

(** A job over three images, two of them processed with one match. *)
Definition progressed_store : gmap string JobStatus :=
  update_progress "job-1" 2 1 (create_job "job-1" 3 0 ∅).2.

(** A job over a hundred images, just created. *)
Definition fresh_store : gmap string JobStatus :=
  (create_job "job-1" 100 0 ∅).2.

End Sample.

(** * Part II: properties *)

(** ** Order of binary64 values *)

Ltac cmp_cases :=
  repeat match goal with
  | |- context [Z.compare ?a ?b] => destruct (Z.compare_spec a b)
  | H : context [Z.compare ?a ?b] |- _ => destruct (Z.compare_spec a b)
  | |- context [Pos.compare_cont Eq ?a ?b] =>
      change (Pos.compare_cont Eq a b) with (Pos.compare a b);
      destruct (Pos.compare_spec a b)
  | H : context [Pos.compare_cont Eq ?a ?b] |- _ =>
      change (Pos.compare_cont Eq a b) with (Pos.compare a b) in H;
      destruct (Pos.compare_spec a b)
  end.

Ltac sf_order :=
  intros; unfold SFleb, SFltb, SFeqb, SFcompare in *;
  repeat match goal with
  | x : spec_float |- _ => destruct x
  | b : bool |- _ => destruct b
  end;
  intros; simpl in *; try congruence; cmp_cases; simpl in *;
  try congruence; try lia; try (split; congruence).

Module PyFloatFacts.
Import PyFloat.

Lemma SFleb_refl (x : spec_float) : x <> S754_nan -> SFleb x x = true.
Proof. sf_order. Qed.

Lemma SFleb_trans (x y z : spec_float) :
  SFleb x y = true -> SFleb y z = true -> SFleb x z = true.
Proof. sf_order. Qed.

Lemma SFltb_leb (x y : spec_float) : SFltb x y = true -> SFleb x y = true.
Proof. sf_order. Qed.

Lemma SFltb_false_leb (x y : spec_float) :
  x <> S754_nan -> y <> S754_nan -> SFltb x y = false -> SFleb y x = true.
Proof. sf_order. Qed.

Lemma SFleb_false_leb (x y : spec_float) :
  x <> S754_nan -> y <> S754_nan -> SFleb x y = false -> SFleb y x = true.
Proof. sf_order. Qed.

Lemma SFleb_not_nan (x y : spec_float) :
  SFleb x y = true -> x <> S754_nan /\ y <> S754_nan.
Proof. sf_order. Qed.

Lemma SFleb_finite_ltb_infinity (x : spec_float) s m e :
  SFleb x (S754_finite s m e) = true -> SFltb x (S754_infinity false) = true.
Proof. sf_order. Qed.

Lemma Prim2SF_threshold :
  Prim2SF 0.7 = S754_finite false 6305039478318694 (-53).
Proof. vm_compute. reflexivity. Qed.

Lemma is_number_spec x : is_number x <-> Prim2SF x <> S754_nan.
Proof.
  unfold is_number, is_nan. rewrite FloatAxioms.eqb_spec. split.
  - intros H E. rewrite E in H. discriminate.
  - intros H. apply SFleb_refl in H. revert H.
    generalize (Prim2SF x). sf_order.
Qed.

Lemma le_refl x : is_number x -> le x x.
Proof.
  rewrite is_number_spec. unfold le. rewrite leb_spec. apply SFleb_refl.
Qed.

Lemma le_trans x y z : le x y -> le y z -> le x z.
Proof. unfold le. rewrite !leb_spec. apply SFleb_trans. Qed.

Lemma lt_le x y : (x <? y)%float = true -> le x y.
Proof. unfold le. rewrite ltb_spec, leb_spec. apply SFltb_leb. Qed.

Lemma not_lt_le x y :
  is_number x -> is_number y -> (x <? y)%float = false -> le y x.
Proof.
  rewrite !is_number_spec. unfold le. rewrite ltb_spec, leb_spec.
  apply SFltb_false_leb.
Qed.

Lemma not_le_le x y :
  is_number x -> is_number y -> (x <=? y)%float = false -> le y x.
Proof.
  rewrite !is_number_spec. unfold le. rewrite !leb_spec.
  apply SFleb_false_leb.
Qed.

Lemma le_is_number x y : le x y -> is_number x /\ is_number y.
Proof.
  rewrite !is_number_spec. unfold le. rewrite leb_spec.
  apply SFleb_not_nan.
Qed.

Lemma le_threshold_lt_infinity x :
  le x 0.7 -> (x <? infinity)%float = true.
Proof.
  unfold le. rewrite leb_spec, ltb_spec, Prim2SF_threshold.
  apply SFleb_finite_ltb_infinity.
Qed.

End PyFloatFacts.

(** ** The job store *)

Module JobStoreFacts.
Import JobStore Sample.

Lemma lookup_update_progress id current found jobs id' :
  update_progress id current found jobs !! id' =
    if decide (id = id') then progressed current found <$> jobs !! id
    else jobs !! id'.
Proof.
  unfold update_progress. case_decide; subst.
  - destruct (jobs !! id') eqn:E; simpl; [apply lookup_insert_eq | done].
  - destruct (jobs !! id); [by apply lookup_insert_ne | done].
Qed.

Lemma lookup_complete_job id ms jobs id' :
  complete_job id ms jobs !! id' =
    if decide (id = id') then completed ms <$> jobs !! id else jobs !! id'.
Proof.
  unfold complete_job. case_decide; subst.
  - destruct (jobs !! id') eqn:E; simpl; [apply lookup_insert_eq | done].
  - destruct (jobs !! id); [by apply lookup_insert_ne | done].
Qed.

Lemma lookup_fail_job id err jobs id' :
  fail_job id err jobs !! id' =
    if decide (id = id') then failed err <$> jobs !! id else jobs !! id'.
Proof.
  unfold fail_job. case_decide; subst.
  - destruct (jobs !! id') eqn:E; simpl; [apply lookup_insert_eq | done].
  - destruct (jobs !! id); [by apply lookup_insert_ne | done].
Qed.

Lemma complete_job_twice id ms jobs :
  complete_job id ms (complete_job id ms jobs) = complete_job id ms jobs.
Proof.
  apply map_eq. intros id'. rewrite !lookup_complete_job.
  case_decide; [|done]. rewrite decide_True by done.
  by destruct (jobs !! id).
Qed.

Lemma fail_job_twice id err jobs :
  fail_job id err (fail_job id err jobs) = fail_job id err jobs.
Proof.
  apply map_eq. intros id'. rewrite !lookup_fail_job.
  case_decide; [|done]. rewrite decide_True by done.
  by destruct (jobs !! id).
Qed.

(** X1: a job created for [total] images starts as processing, at image 0
    and 0 percent, with no match and no error. *)
Lemma create_job_initial_state uuid total now jobs :
  (create_job uuid total now jobs).1 = uuid /\
  (create_job uuid total now jobs).2 !! uuid =
    Some {| job_id := uuid; status := "processing"; progress := 0;
            current_image := 0; total_images := total; matches_found := 0;
            matches := []; message := "Starting processing..."; error := None;
            created_at := now |}.
Proof. split; [done|]. apply lookup_insert_eq. Qed.

(** C1, as stated, fails: [complete_job] on a job that already failed turns
    its status into ["completed"], sets its progress to 100 and rewrites its
    message; [fail_job] on a completed job turns it into ["failed"]. *)
Lemma complete_job_overwrites_failed_job :
  status <$> failed_store !! "job-1" = Some "failed" /\
  status <$> complete_job "job-1" [] failed_store !! "job-1" = Some "completed" /\
  progress <$> complete_job "job-1" [] failed_store !! "job-1" = Some 100 /\
  status <$> fail_job "job-1" "late"
      (complete_job "job-1" [] failed_store) !! "job-1" = Some "failed".
Proof. vm_compute. repeat split; reflexivity. Qed.

(** C1, amended: [complete_job] and [fail_job] take effect on every existing
    job, terminal or not.  [complete_job] sets status, progress, matches,
    matches_found and message and keeps error and current_image;
    [fail_job] sets status, error and message and keeps matches,
    matches_found, progress and current_image.  Repeating a call with the
    same arguments changes nothing further. *)
Theorem terminal_calls_overwrite jobs id job ms err :
  jobs !! id = Some job ->
  (exists job1, complete_job id ms jobs !! id = Some job1 /\
     status job1 = "completed" /\ progress job1 = 100 /\
     matches job1 = ms /\ matches_found job1 = len ms /\
     message job1 = "Completed! Found " +:+ pretty (len ms) +:+ " matches" /\
     error job1 = error job /\ current_image job1 = current_image job) /\
  (exists job2, fail_job id err jobs !! id = Some job2 /\
     status job2 = "failed" /\ error job2 = Some err /\
     message job2 = "Failed: " +:+ err /\
     matches job2 = matches job /\ matches_found job2 = matches_found job /\
     progress job2 = progress job /\ current_image job2 = current_image job) /\
  complete_job id ms (complete_job id ms jobs) = complete_job id ms jobs /\
  fail_job id err (fail_job id err jobs) = fail_job id err jobs.
Proof.
  intros Hjob. split; [|split; [|split]].
  - exists (completed ms job).
    rewrite lookup_complete_job, decide_True, Hjob by done.
    split_and!; reflexivity.
  - exists (failed err job).
    rewrite lookup_fail_job, decide_True, Hjob by done.
    split_and!; reflexivity.
  - apply complete_job_twice.
  - apply fail_job_twice.
Qed.

Lemma terminal_calls_overwrite_witness :
  exists job, failed_store !! "job-1" = Some job /\ terminal job /\
    exists job1, complete_job "job-1" [] failed_store !! "job-1" = Some job1 /\
      status job1 = "completed" /\ error job1 = Some "Session not found".
Proof.
  eexists. split; [vm_compute; reflexivity|]. split; [right; reflexivity|].
  destruct (terminal_calls_overwrite failed_store "job-1" _ [] "late"
              ltac:(vm_compute; reflexivity))
    as [(job1 & H1 & Hs & _ & _ & _ & _ & He & _) _].
  exists job1. split; [exact H1|]. split; [exact Hs|]. exact He.
Defined.

(** C2, as stated, fails for a terminal job: [update_progress] on a
    completed job rewrites its current_image, matches_found, progress and
    message. *)
Lemma update_progress_changes_completed_job :
  (fun job => (status job, current_image job, matches_found job, progress job,
               message job)) <$> completed_store !! "job-1"
    = Some ("completed", 0, 1, 100, "Completed! Found 1 matches") /\
  (fun job => (status job, current_image job, matches_found job, progress job,
               message job)) <$>
      update_progress "job-1" 2 0 completed_store !! "job-1"
    = Some ("completed", 2, 0, 66, "Processing image 2 of 3").
Proof. vm_compute. split; reflexivity. Qed.

(** C2, amended: [update_progress] is a no-op when the job is absent; on an
    existing job, terminal or not, it sets current_image and matches_found
    and leaves status, matches, error, total_images, created_at and every
    other job unchanged.  For counters that [float()] converts exactly
    (below 2^53, where the percentage cannot overflow) it also sets
    progress to the computed percentage and message to the progress
    text. *)
Theorem update_progress_effect jobs id current found :
  (jobs !! id = None -> update_progress id current found jobs = jobs) /\
  (forall job, jobs !! id = Some job ->
     exists job', update_progress id current found jobs !! id = Some job' /\
       current_image job' = current /\ matches_found job' = found /\
       status job' = status job /\ matches job' = matches job /\
       error job' = error job /\ total_images job' = total_images job /\
       created_at job' = created_at job /\ job_id job' = job_id job /\
       (Vocabulary.exact_int current ->
        Vocabulary.exact_int (total_images job) ->
        progress job' = progress_percent current (total_images job) /\
        message job' = "Processing image " +:+ pretty current +:+ " of "
                         +:+ pretty (total_images job))) /\
  (forall id', id' <> id ->
     update_progress id current found jobs !! id' = jobs !! id').
Proof.
  split; [|split].
  - intros Hnone. unfold update_progress. by rewrite Hnone.
  - intros job Hjob. exists (progressed current found job).
    rewrite lookup_update_progress, decide_True, Hjob by done.
    split_and!; try reflexivity. intros _ _. split; reflexivity.
  - intros id' Hne. rewrite lookup_update_progress, decide_False; done.
Qed.

(** C9: [fail_job] on an existing job sets status, error and message and
    nothing else: current_image, progress, matches, matches_found,
    total_images and created_at keep their values, and no other job
    changes. *)
Theorem fail_job_frame jobs id err job :
  jobs !! id = Some job ->
  exists job', fail_job id err jobs !! id = Some job' /\
    status job' = "failed" /\ error job' = Some err /\
    message job' = "Failed: " +:+ err /\
    current_image job' = current_image job /\
    progress job' = progress job /\
    matches job' = matches job /\
    matches_found job' = matches_found job /\
    total_images job' = total_images job /\
    created_at job' = created_at job /\
    job_id job' = job_id job /\
    forall id', id' <> id -> fail_job id err jobs !! id' = jobs !! id'.
Proof.
  intros Hjob. exists (failed err job).
  rewrite lookup_fail_job, decide_True, Hjob by done.
  split_and!; try reflexivity.
  intros id' Hne. rewrite lookup_fail_job, decide_False; done.
Qed.

Lemma progressed_store_job :
  progressed_store !! "job-1" = Some (progressed 2 1 (new_job "job-1" 3 0)).
Proof. vm_compute. reflexivity. Qed.

(** A job stopped after two of three images keeps that progress when it
    fails. *)
Lemma fail_job_frame_witness :
  exists job',
    fail_job "job-1" "boom" progressed_store !! "job-1" = Some job' /\
    status job' = "failed" /\ current_image job' = 2 /\
    progress job' = 66 /\ matches_found job' = 1.
Proof.
  destruct (fail_job_frame progressed_store "job-1" "boom" _
              progressed_store_job)
    as (job' & H & Hs & _ & _ & Hc & Hp & _ & Hm & _).
  exists job'. split; [exact H|]. split; [exact Hs|].
  split; [exact Hc|]. split; [|exact Hm].
  rewrite Hp. vm_compute. reflexivity.
Defined.

(** C8 at 29 of 100 images: the stored percentage is 28, one below
    [floor(29 * 100 / 100) = 29].  The quotient [29 / 100] is rounded to
    binary64 before it is multiplied by 100, and the product lands just
    under 29. *)
Theorem progress_29_of_100 :
  progress <$> update_progress "job-1" 29 0 fresh_store !! "job-1" = Some 28 /\
  progress_percent 29 100 = 28 /\
  29 * 100 / 100 = 29.
Proof. vm_compute. repeat split; reflexivity. Qed.

(** The percentage is 0 whenever total_images is not positive. *)
Lemma progress_percent_no_images current total :
  total <= 0 -> progress_percent current total = 0.
Proof.
  intros H. unfold progress_percent.
  destruct (Z.gtb_spec total 0); [lia | reflexivity].
Qed.

End JobStoreFacts.

(** ** The job-status response *)

Module ApiFacts.
Import JobStore.

(** C10: the response of [get_job_status] carries a matches list exactly
    when the job is completed and its match list is non-empty; for a job
    still processing, a failed job or a completed job without matches the
    field is [None], never an empty list. *)
Theorem response_matches_only_when_completed id jobs job :
  jobs !! id = Some job ->
  exists resp, Api.get_job_status id jobs = Api.Ok resp /\
    (status job = "completed" -> matches job <> [] ->
       Api.matches resp = Some (map Api.to_model (matches job))) /\
    (status job <> "completed" -> Api.matches resp = None) /\
    (matches job = [] -> Api.matches resp = None) /\
    Api.matches resp <> Some [].
Proof.
  intros Hjob. unfold Api.get_job_status, get_job. rewrite Hjob.
  eexists. split; [reflexivity|]. simpl. unfold Api.matches_data.
  destruct (String.eqb_spec (status job) "completed") as [Hs|Hs];
    destruct (matches job) as [|m ms]; simpl; split_and!; congruence.
Qed.

Lemma response_matches_only_when_completed_witness :
  exists resp,
    Api.get_job_status "job-1" Sample.completed_store = Api.Ok resp /\
    Api.matches resp = Some [{| Api.index := 0; Api.distance := 0.5 |}].
Proof.
  destruct (response_matches_only_when_completed "job-1"
              Sample.completed_store _ ltac:(vm_compute; reflexivity))
    as (resp & Hr & Hm & _).
  exists resp. split; [exact Hr|].
  rewrite Hm; [reflexivity|reflexivity|discriminate].
Defined.

End ApiFacts.

(** ** The session store *)

Module SessionStoreFacts.
Import SessionStore.
Section WithEncoding.
Context {ndarray : Type}.
Implicit Types sessions : gmap string (SessionData ndarray).

Lemma lookup_foldl_delete sessions (ids : list string) id :
  foldl (fun m session_id => base.delete session_id m) sessions ids !! id =
    if decide (id ∈ ids) then None else sessions !! id.
Proof.
  revert sessions. induction ids as [|k ids IH]; intros sessions.
  - reflexivity.
  - cbn [foldl]. rewrite IH.
    destruct (decide (id ∈ ids)) as [Hin|Hin].
    + rewrite decide_True by (by right). done.
    + destruct (decide (id = k)) as [->|Hne].
      * rewrite decide_True by left. apply lookup_delete_eq.
      * rewrite decide_False by (rewrite elem_of_cons; tauto).
        by apply lookup_delete_ne.
Qed.

Lemma elem_of_expired_sessions now sessions id :
  id ∈ expired_sessions now sessions <->
  exists sd, sessions !! id = Some sd /\ expired now sd = true.
Proof.
  unfold expired_sessions. rewrite list_elem_of_fmap. split.
  - intros ([k sd] & -> & Hin). apply list_elem_of_filter in Hin as [Hexp Hin].
    apply elem_of_map_to_list in Hin. eauto.
  - intros (sd & Hsd & Hexp). exists (id, sd). split; [done|].
    apply list_elem_of_filter. split; [done|]. by apply elem_of_map_to_list.
Qed.

Lemma lookup_cleanup now sessions id :
  (cleanup_expired_sessions now sessions).2 !! id =
    match sessions !! id with
    | Some sd => if expired now sd then None else Some sd
    | None => None
    end.
Proof.
  unfold cleanup_expired_sessions. simpl. rewrite lookup_foldl_delete.
  destruct (decide (id ∈ expired_sessions now sessions)) as [Hin|Hin].
  - apply elem_of_expired_sessions in Hin as (sd & -> & ->). done.
  - destruct (sessions !! id) as [sd|] eqn:Hsd; [|done].
    destruct (expired now sd) eqn:Hexp; [|done].
    exfalso. apply Hin, elem_of_expired_sessions. eauto.
Qed.

Lemma count_cleanup now sessions :
  (cleanup_expired_sessions now sessions).1 =
    Z.of_nat (size (filter (fun kv => expired now kv.2 = true) sessions)).
Proof.
  unfold cleanup_expired_sessions, expired_sessions, len. simpl.
  rewrite length_fmap, map_filter_alt, map_size_list_to_map; [done|].
  eapply NoDup_fmap_fst.
  - intros k x y Hx Hy.
    apply list_elem_of_filter in Hx as [_ Hx], Hy as [_ Hy].
    apply elem_of_map_to_list in Hx, Hy. congruence.
  - apply NoDup_filter, NoDup_map_to_list.
Qed.

Lemma expired_spec now (sd : SessionData ndarray) :
  expired now sd = true <-> now - last_accessed sd > session_ttl.
Proof. unfold expired. rewrite Z.gtb_gt. lia. Qed.

(** C7: [retrieve] on a present id returns the stored encoding and sets
    last_accessed to now, leaving the rest of the store alone; on a missing
    id it returns [None] and changes nothing.  [cleanup_expired_sessions]
    removes exactly the sessions idle for strictly more than the TTL and
    returns how many they are, so a session read at most a TTL ago stays. *)
Theorem retrieve_refreshes_and_cleanup_evicts_idle sessions id now :
  (forall sd, sessions !! id = Some sd ->
     exists sessions', retrieve id now sessions = (Some (encoding sd), sessions') /\
       sessions' !! id = Some {| encoding := encoding sd;
                                 created_at := created_at sd;
                                 last_accessed := now |} /\
       forall id', id' <> id -> sessions' !! id' = sessions !! id') /\
  (sessions !! id = None -> retrieve id now sessions = (None, sessions)) /\
  (forall id' sd, sessions !! id' = Some sd ->
     now - last_accessed sd > session_ttl ->
     (cleanup_expired_sessions now sessions).2 !! id' = None) /\
  (forall id' sd, sessions !! id' = Some sd ->
     now - last_accessed sd <= session_ttl ->
     (cleanup_expired_sessions now sessions).2 !! id' = Some sd) /\
  (forall id', sessions !! id' = None ->
     (cleanup_expired_sessions now sessions).2 !! id' = None) /\
  (cleanup_expired_sessions now sessions).1 =
    Z.of_nat (size (filter (fun kv => now - last_accessed kv.2 > session_ttl)
                      sessions)) /\
  (forall sd later, sessions !! id = Some sd ->
     later - now <= session_ttl ->
     exists sd', (cleanup_expired_sessions later (retrieve id now sessions).2).2
                   !! id = Some sd' /\ encoding sd' = encoding sd).
Proof.
  split_and!.
  - intros sd Hsd. unfold retrieve. rewrite Hsd. eexists. split; [done|].
    split; [apply lookup_insert_eq|].
    intros id' Hne. by apply lookup_insert_ne.
  - intros Hnone. unfold retrieve. by rewrite Hnone.
  - intros id' sd Hsd Hidle. rewrite lookup_cleanup, Hsd.
    apply expired_spec in Hidle. by rewrite Hidle.
  - intros id' sd Hsd Hidle. rewrite lookup_cleanup, Hsd.
    destruct (expired now sd) eqn:Hexp; [|done].
    apply expired_spec in Hexp. lia.
  - intros id' Hnone. by rewrite lookup_cleanup, Hnone.
  - rewrite count_cleanup. f_equal. f_equal.
    apply map_filter_ext. intros k sd _. simpl. apply expired_spec.
  - intros sd later Hsd Hlater. unfold retrieve. rewrite Hsd. cbn [snd].
    rewrite lookup_cleanup, lookup_insert_eq.
    destruct (expired later (touch now sd)) eqn:Hexp.
    + apply expired_spec in Hexp. simpl in Hexp. lia.
    + eexists. split; done.
Qed.

End WithEncoding.

(** Session ["s1"], stored at time 0 and read ten hours later, is kept by a
    cleanup thirty hours after the store and evicted by one thirty-five
    hours after it. *)
Example session_read_within_ttl_is_kept :
  let hour := 3600 * 1000000 in
  let sessions := (retrieve "s1" (10 * hour) Sample.one_session).2 in
  (retrieve "s1" (10 * hour) Sample.one_session).1 = Some 0%float /\
  (cleanup_expired_sessions (30 * hour) Sample.one_session).1 = 1 /\
  (cleanup_expired_sessions (30 * hour) sessions).1 = 0 /\
  last_accessed <$> (cleanup_expired_sessions (30 * hour) sessions).2 !! "s1"
    = Some (10 * hour) /\
  (cleanup_expired_sessions (34 * hour) sessions).1 = 0 /\
  (cleanup_expired_sessions (35 * hour) sessions).1 = 1 /\
  (cleanup_expired_sessions (35 * hour) sessions).2 !! "s1" = None.
Proof. vm_compute. repeat split; reflexivity. Qed.

End SessionStoreFacts.

(** ** The batch processor *)

Module BatchFacts.
Import JobStore Batch PyFloat PyFloatFacts.

Section WithOracle.
Context {ndarray image_array location : Type}.
Variable load_image : string -> option image_array.
Variable face_locations : image_array -> option (list location).
Variable face_encodings : image_array -> list location -> option (list ndarray).
Variable face_distance : ndarray -> ndarray -> float.

Local Abbreviation keep_best := (Batch.keep_best face_distance).
Local Abbreviation best_distance := (Batch.best_distance face_distance).
Local Abbreviation process_image :=
  (Batch.process_image load_image face_locations face_encodings face_distance).
Local Abbreviation batch_loop :=
  (Batch.batch_loop load_image face_locations face_encodings face_distance).
Local Abbreviation batch_calls :=
  (Batch.batch_calls load_image face_locations face_encodings face_distance).
Local Abbreviation process_batch_background :=
  (Batch.process_batch_background load_image face_locations face_encodings
     face_distance).
Local Abbreviation task_step :=
  (Batch.task_step load_image face_locations face_encodings face_distance).
Local Abbreviation run_action :=
  (Batch.run_action load_image face_locations face_encodings face_distance).
Local Abbreviation run_schedule :=
  (Batch.run_schedule load_image face_locations face_encodings face_distance).
Local Abbreviation raises := (Batch.raises load_image face_locations face_encodings).
Local Abbreviation progress_call :=
  (Batch.progress_call load_image face_locations face_encodings).

(** *** The best distance of one image *)

Lemma keep_best_tracked base best seen enc :
  is_number (face_distance base enc) ->
  (forall d, d ∈ seen -> is_number d) ->
  tracked best seen ->
  tracked (keep_best base best enc) (seen ++ [face_distance base enc]).
Proof.
  intros Hnum Hseen Htr. unfold Batch.keep_best.
  set (d := face_distance base enc) in *.
  destruct (d <=? 0.7)%float eqn:Hle; simpl.
  - destruct (d <? best)%float eqn:Hlt.
    + right. split; [exact Hle|]. split; [set_solver|].
      intros d' [Hd'| ->%list_elem_of_singleton]%elem_of_app;
        [|by apply le_refl].
      destruct Htr as [[-> Hno]|[_ [_ Hmin]]].
      * apply le_trans with (0.7)%float; [exact Hle|].
        apply not_le_le; [by apply Hseen | vm_compute; reflexivity | by apply Hno].
      * apply le_trans with best; [by apply lt_le | by apply Hmin].
    + destruct Htr as [[-> Hno]|[Hb [Hin Hmin]]].
      * apply le_threshold_lt_infinity in Hle. congruence.
      * right. split; [exact Hb|]. split; [set_solver|].
        intros d' [Hd'| ->%list_elem_of_singleton]%elem_of_app;
          [by apply Hmin|].
        apply not_lt_le;
          [exact Hnum | by apply (le_is_number best 0.7%float) | exact Hlt].
  - destruct Htr as [[-> Hno]|[Hb [Hin Hmin]]].
    + left. split; [done|].
      intros d' [Hd'| ->%list_elem_of_singleton]%elem_of_app;
        [by apply Hno | exact Hle].
    + right. split; [exact Hb|]. split; [set_solver|].
      intros d' [Hd'| ->%list_elem_of_singleton]%elem_of_app;
        [by apply Hmin|].
      apply le_trans with (0.7)%float; [exact Hb|].
      apply not_le_le; [exact Hnum | vm_compute; reflexivity | exact Hle].
Qed.

Lemma fold_keep_best_tracked base encs best seen :
  (forall e, e ∈ encs -> is_number (face_distance base e)) ->
  (forall d, d ∈ seen -> is_number d) ->
  tracked best seen ->
  tracked (fold_left (keep_best base) encs best)
    (seen ++ map (face_distance base) encs).
Proof.
  revert best seen. induction encs as [|e encs IH]; intros best seen He Hs Htr.
  - simpl. by rewrite app_nil_r.
  - simpl. rewrite cons_middle, app_assoc. apply IH.
    + intros e' He'. apply He. by right.
    + intros d [Hd| ->%list_elem_of_singleton]%elem_of_app; [auto|].
      apply He. left.
    + apply keep_best_tracked; auto. apply He. left.
Qed.

Lemma best_distance_tracked base encs :
  (forall e, e ∈ encs -> is_number (face_distance base e)) ->
  tracked (best_distance base encs) (map (face_distance base) encs).
Proof.
  intros He. unfold Batch.best_distance.
  apply (fold_keep_best_tracked base encs infinity []); [done| |].
  - intros d Hd. by apply elem_of_nil in Hd.
  - left. split; [done|]. intros d Hd. by apply elem_of_nil in Hd.
Qed.

Lemma exists_minimum (ds : list float) :
  ds <> [] -> (forall d, d ∈ ds -> is_number d) -> exists m, is_minimum m ds.
Proof.
  induction ds as [|d ds IH]; [done|]. intros _ Hnum.
  destruct ds as [|d' ds'].
  - exists d. split; [left|].
    intros x ->%list_elem_of_singleton. apply le_refl, Hnum. left.
  - destruct IH as (m & Hin & Hmin); [done| |].
    { intros x Hx. apply Hnum. by right. }
    assert (is_number d) by (apply Hnum; left).
    assert (is_number m) by (apply Hnum; by right).
    destruct (d <=? m)%float eqn:Hdm.
    + exists d. split; [left|].
      intros x [->|Hx]%elem_of_cons; [by apply le_refl|].
      apply le_trans with m; auto.
    + exists m. split; [by right|].
      intros x [->|Hx]%elem_of_cons; [by apply not_le_le | auto].
Qed.

(** C6: for an image with one or more faces whose distances to the
    reference are numbers, there is a least distance [m] among them, the
    image is recorded as a match exactly when [m <= 0.7], and the entry
    recorded for it carries [m]. *)
Theorem best_face_decides_match base idx image_base64 arr locs encs matches :
  load_image image_base64 = Some arr ->
  face_locations arr = Some locs ->
  locs <> [] ->
  face_encodings arr locs = Some encs ->
  encs <> [] ->
  (forall e, e ∈ encs -> is_number (face_distance base e)) ->
  exists m, is_minimum m (map (face_distance base) encs) /\
    process_image base idx image_base64 matches =
      Some (if (m <=? 0.7)%float
            then matches ++ [{| index := idx; distance := m |}]
            else matches).
Proof.
  intros Hload Hlocs Hne Hencs Hne' Hnum.
  unfold Batch.process_image. rewrite Hload. simpl. rewrite Hlocs. simpl.
  assert ((len locs >? 0) = true) as ->.
  { destruct locs; [done|]. apply Z.gtb_lt. unfold len. simpl. lia. }
  rewrite Hencs. simpl.
  destruct (best_distance_tracked base encs Hnum) as [[-> Hno]|[Hb Hmin]].
  - destruct (exists_minimum (map (face_distance base) encs)) as (m & Hm).
    { by destruct encs. }
    { intros d (e & -> & He)%list_elem_of_fmap. by apply Hnum. }
    exists m. split; [exact Hm|].
    rewrite (Hno m) by apply Hm.
    replace (infinity <=? 0.7)%float with false by (vm_compute; reflexivity).
    reflexivity.
  - exists (best_distance base encs). split; [exact Hmin|]. reflexivity.
Qed.

(** *** One image and the whole loop *)

Lemma process_image_raises base idx image_base64 matches :
  process_image base idx image_base64 matches = None <->
  raises image_base64 = true.
Proof.
  unfold Batch.process_image, Batch.raises.
  destruct (load_image image_base64) as [arr|]; simpl; [|done].
  destruct (face_locations arr) as [locs|]; simpl; [|done].
  destruct (len locs >? 0); [|done].
  destruct (face_encodings arr locs); simpl; done.
Qed.

Lemma process_image_appends base idx image_base64 matches matches' :
  process_image base idx image_base64 matches = Some matches' ->
  matches' = matches \/
  exists d, le d 0.7 /\ matches' = matches ++ [{| index := idx; distance := d |}].
Proof.
  unfold Batch.process_image.
  destruct (load_image image_base64) as [arr|]; simpl; [|done].
  destruct (face_locations arr) as [locs|]; simpl; [|done].
  destruct (len locs >? 0); [|intros [= <-]; by left].
  destruct (face_encodings arr locs) as [encs|]; simpl; [|done].
  destruct (best_distance base encs <=? 0.7)%float eqn:Hle;
    intros [= <-]; [right; eauto | by left].
Qed.

Lemma len_cons {A} (x : A) (l : list A) : len (x :: l) = len l + 1.
Proof. unfold len. simpl. lia. Qed.

Lemma len_app {A} (l1 l2 : list A) : len (l1 ++ l2) = len l1 + len l2.
Proof. unfold len. rewrite length_app. lia. Qed.

Lemma len_nonneg {A} (l : list A) : 0 <= len l.
Proof. unfold len. lia. Qed.

Lemma batch_loop_extends job_id base images idx matches :
  exists ext,
    (batch_loop job_id base images idx matches).2 = matches ++ ext /\
    added idx (len images) ext.
Proof.
  revert idx matches. induction images as [|img rest IH]; intros idx matches.
  - exists []. simpl. rewrite app_nil_r. repeat constructor.
  - assert (forall ext, added (idx + 1) (len rest) ext ->
              Forall (fun m => idx <= index m < idx + len (img :: rest) /\
                               le (distance m) 0.7) ext) as Hwiden.
    { intros ext [Hall _]. eapply Forall_impl; [exact Hall|].
      intros m [? ?]. rewrite len_cons. split; [lia|done]. }
    pose proof (len_nonneg rest) as Hlen.
    simpl. destruct (process_image base idx img matches) as [matches'|] eqn:Hp.
    + destruct (IH (idx + 1) matches') as (ext & Hfin & Hadd).
      destruct (batch_loop job_id base rest (idx + 1) matches')
        as [calls final] eqn:Hloop.
      simpl in *. subst final.
      apply process_image_appends in Hp as [->|(d & Hd & ->)].
      * exists ext. split; [done|]. split; [by apply Hwiden | apply Hadd].
      * exists ({| index := idx; distance := d |} :: ext).
        split; [by rewrite <- app_assoc|]. split.
        -- constructor; [|by apply Hwiden].
           rewrite len_cons. simpl. split; [lia|done].
        -- constructor; [apply Hadd|].
           eapply Forall_impl; [apply Hadd|]. simpl. intros m [? _]. lia.
    + destruct (IH (idx + 1) matches) as (ext & Hfin & Hadd).
      exists ext. split; [done|]. split; [by apply Hwiden | apply Hadd].
Qed.

(** C5: when [process_batch_background] leaves the job completed, every
    entry of its match list has an index in [0, N) for the N submitted
    images and a distance of at most 0.7, and the indices are strictly
    increasing, hence pairwise distinct: one entry per image at most. *)
Theorem completed_job_matches job_id session_id images now w job :
  job_store (process_batch_background job_id session_id images now w)
    !! job_id = Some job ->
  status job = "completed" ->
  Forall (fun m => 0 <= index m < len images /\ le (distance m) 0.7)
    (matches job) /\
  StronglySorted (fun a b => index a < index b) (matches job) /\
  NoDup (index <$> matches job).
Proof.
  unfold Batch.process_batch_background.
  destruct (SessionStore.retrieve session_id now (session_store w))
    as [[base|] sessions]; simpl.
  - destruct (batch_loop_extends job_id base images 0 []) as (ext & Hfin & Hadd).
    destruct (batch_loop job_id base images 0 []) as [calls final].
    simpl in Hfin. subst final.
    unfold run_calls. rewrite foldl_app. simpl.
    rewrite JobStoreFacts.lookup_complete_job, decide_True by done.
    destruct (foldl run_call (job_store w) calls !! job_id) as [job0|];
      simpl; [|done].
    intros [= <-] _. simpl. destruct Hadd as [Hall Hsorted].
    split; [exact Hall|]. split; [exact Hsorted|].
    clear Hall. induction Hsorted as [|m ms Hs IH' Hlt]; simpl.
    + constructor.
    + constructor; [|exact IH'].
      intros (m' & Heq & Hin)%list_elem_of_fmap.
      rewrite Forall_forall in Hlt. specialize (Hlt m' Hin). lia.
  - rewrite JobStoreFacts.lookup_fail_job, decide_True by done.
    destruct (job_store w !! job_id); simpl; [|done].
    intros [= <-]. simpl. done.
Qed.

(** *** The calls made on the job store *)

Lemma filter_all {A} (P : A -> Prop) `{forall x, Decision (P x)} (l : list A) :
  Forall P l -> filter P l = l.
Proof.
  induction 1 as [|x l Hx _ IH]; [done|].
  rewrite filter_cons_True by done. by rewrite IH.
Qed.

Lemma filter_none {A} (P : A -> Prop) `{forall x, Decision (P x)} (l : list A) :
  Forall (fun x => ~ P x) l -> filter P l = [].
Proof.
  induction 1 as [|x l Hx _ IH]; [done|].
  by rewrite filter_cons_False.
Qed.

Lemma batch_loop_calls job_id base images idx (n : nat) matches :
  idx = Z.of_nat n ->
  Forall (fun m => index m < idx) matches ->
  (batch_loop job_id base images idx matches).1 =
    omap (progress_call job_id (batch_loop job_id base images idx matches).2)
      (imap (fun i img => ((n + i)%nat, img)) images).
Proof.
  revert idx n matches.
  induction images as [|img rest IH]; intros idx n matches Hidx Hold; [done|].
  rewrite imap_cons. cbn [omap list_omap Batch.batch_loop].
  unfold Batch.progress_call at 1. cbn [fst snd].
  assert (imap ((fun i img0 => ((n + i)%nat, img0)) ∘ S) rest =
          imap (fun i img0 => ((S n + i)%nat, img0)) rest) as Himap.
  { apply imap_ext. intros i x _. simpl. f_equal. lia. }
  rewrite Himap.
  destruct (process_image base idx img matches) as [matches'|] eqn:Hp.
  - assert (raises img = false) as ->.
    { destruct (raises img) eqn:Hr; [|done].
      apply (process_image_raises base idx img matches) in Hr. congruence. }
    specialize (IH (idx + 1) (S n) matches').
    destruct (batch_loop_extends job_id base rest (idx + 1) matches')
      as (ext & Hfin & Hall & _).
    destruct (batch_loop job_id base rest (idx + 1) matches')
      as [calls final] eqn:Hloop.
    cbn [fst snd] in *. subst final.
    assert (Forall (fun m => index m <= idx) matches') as Hnew.
    { apply process_image_appends in Hp as [->|(d & _ & ->)].
      - eapply Forall_impl; [exact Hold|]. simpl. lia.
      - apply Forall_app. split.
        + eapply Forall_impl; [exact Hold|]. simpl. lia.
        + repeat constructor. simpl. lia. }
    f_equal.
    + f_equal; [lia|]. unfold Batch.matches_so_far.
      replace (Z.of_nat (n + 0)) with idx by lia.
      rewrite filter_app, filter_all, filter_none, app_nil_r; [done| |done].
      eapply Forall_impl; [exact Hall|]. simpl. lia.
    + apply IH; [lia|].
      eapply Forall_impl; [exact Hnew|]. simpl. lia.
  - apply process_image_raises in Hp. rewrite Hp.
    apply IH; [lia|]. eapply Forall_impl; [exact Hold|]. simpl. lia.
Qed.

(** C3, amended: with the reference found, the calls on the job store are,
    in submission order, one [update_progress(job_id, i + 1, matches so far)]
    for each image [i] that was processed without raising, none for an image
    that raised, and a final [complete_job] with the whole match list. *)
Theorem progress_once_per_processed_image job_id base images :
  batch_calls job_id (Some base) images =
    omap (progress_call job_id (batch_loop job_id base images 0 []).2)
      (imap pair images)
    ++ [CompleteJob job_id (batch_loop job_id base images 0 []).2].
Proof.
  unfold Batch.batch_calls.
  pose proof (batch_loop_calls job_id base images 0 0 [] eq_refl
                ltac:(constructor)) as Hcalls.
  destruct (batch_loop job_id base images 0 []) as [calls final].
  cbn [fst snd] in *. by rewrite Hcalls.
Qed.

(** X2: [compare_batch] on a registered session creates a processing job
    whose total_images is the number of submitted images and hands the
    images to the task unchanged; on an unknown session it answers 404 and
    creates nothing. *)
Lemma compare_batch_creates_job session_id images now_retrieve uuid now_create
    (w : @World ndarray) :
  match session_store w !! session_id with
  | Some _ =>
      exists w', Batch.compare_batch session_id images now_retrieve uuid
                   now_create w
                 = (Api.Ok (uuid, "processing"), w',
                    Some (Starting uuid session_id images)) /\
        job_store w' !! uuid = Some (new_job uuid (len images) now_create)
  | None =>
      Batch.compare_batch session_id images now_retrieve uuid now_create w
      = (Api.HTTPException 404 "Session not found", w, None)
  end.
Proof.
  unfold Batch.compare_batch, SessionStore.retrieve.
  destruct (session_store w !! session_id) as [sd|]; simpl.
  - eexists. split; [reflexivity|]. apply lookup_insert_eq.
  - by destruct w.
Qed.

(** *** The session is read once *)









End WithOracle.

(** *** The sample library *)

Local Abbreviation sample_process_image :=
  (Batch.process_image Sample.load_image Sample.face_locations
     Sample.face_encodings Sample.face_distance).
Local Abbreviation sample_batch_calls :=
  (Batch.batch_calls Sample.load_image Sample.face_locations
     Sample.face_encodings Sample.face_distance).
Local Abbreviation sample_process_batch_background :=
  (Batch.process_batch_background Sample.load_image Sample.face_locations
     Sample.face_encodings Sample.face_distance).
Local Abbreviation sample_task_step :=
  (Batch.task_step Sample.load_image Sample.face_locations
     Sample.face_encodings Sample.face_distance).
Local Abbreviation sample_run_schedule :=
  (Batch.run_schedule Sample.load_image Sample.face_locations
     Sample.face_encodings Sample.face_distance).

(** Faces at distances 0.9, 0.5 and 0.75: the image is a match at 0.5. *)
Example group_image_matches_at_best_distance :
  sample_process_image 0%float 4 "group" [] =
    Some [{| index := 4; distance := 0.5 |}].
Proof. vm_compute. reflexivity. Qed.

Lemma best_face_decides_match_witness :
  exists m,
    is_minimum m (map (Sample.face_distance 0%float)
                    [0.9%float; 0.5%float; 0.75%float]) /\
    sample_process_image 0%float 4 "group" [] =
      Some (if (m <=? 0.7)%float
            then [] ++ [{| index := 4; distance := m |}] else []).
Proof.
  apply (best_face_decides_match Sample.load_image Sample.face_locations
           Sample.face_encodings Sample.face_distance 0%float 4 "group"
           "group" [0; 1; 2]%nat [0.9%float; 0.5%float; 0.75%float] []).
  - vm_compute. reflexivity.
  - vm_compute. reflexivity.
  - discriminate.
  - vm_compute. reflexivity.
  - discriminate.
  - intros e He. unfold Sample.face_distance.
    repeat (apply elem_of_cons in He as [->|He]; [vm_compute; reflexivity|]).
    by apply elem_of_nil in He.
Defined.

(** The scenario of the specification: one match, one image without a
    face, one face too far. *)
Lemma scenario_completes :
  job_store (sample_process_batch_background "job-1" "s1"
               Sample.scenario_images 2 Sample.scenario) !! "job-1"
    = Some Sample.scenario_job.
Proof. vm_compute. reflexivity. Qed.

Lemma completed_job_matches_witness :
  Forall (fun m => 0 <= index m < len Sample.scenario_images /\
                   le (distance m) 0.7)
    [{| index := 0; distance := 0.5 |}] /\
  StronglySorted (fun a b => index a < index b)
    [{| index := 0; distance := 0.5 |}] /\
  NoDup [0].
Proof.
  exact (completed_job_matches Sample.load_image Sample.face_locations
           Sample.face_encodings Sample.face_distance "job-1" "s1"
           Sample.scenario_images 2 Sample.scenario Sample.scenario_job
           scenario_completes eq_refl).
Defined.






(** C3, as stated, fails: the image at index 0 does not decode, and no
    [update_progress("job-1", 1, 0)] is made for it; the first call is the
    one for index 1. *)
Lemma corrupt_image_makes_no_progress_call :
  sample_batch_calls "job-1" (Some 0%float) ["corrupt"; "imgA"] =
    [UpdateProgress "job-1" 2 1;
     CompleteJob "job-1" [{| index := 1; distance := 0.5 |}]].
Proof. vm_compute. reflexivity. Qed.

(** The session is deleted right after the task's first step: the job
    completes as in the undisturbed run. *)
Example job_survives_session_delete :
  let start :=
    sample_task_step 2 (Starting "job-1" "s1" Sample.scenario_images)
      Sample.scenario in
  (sample_run_schedule Sample.busy_schedule start).1 = Finished /\
  job_store (sample_run_schedule Sample.busy_schedule start).2 !! "job-1"
    = Some Sample.scenario_job /\
  session_store (sample_run_schedule Sample.busy_schedule start).2 !! "s1"
    = Some {| SessionStore.encoding := 1%float;
              SessionStore.created_at := 6;
              SessionStore.last_accessed := 6 |}.
Proof. vm_compute. repeat split; reflexivity. Qed.

(** The session is deleted before the task starts: the job fails. *)
Example job_fails_without_session :
  (fun job => (status job, error job, current_image job)) <$>
    job_store (sample_process_batch_background "job-1" "s1"
                 Sample.scenario_images 2
                 {| session_store := ∅;
                    job_store := job_store Sample.scenario |}) !! "job-1"
    = Some ("failed", Some "Session not found", 0).
Proof. vm_compute. reflexivity. Qed.

End BatchFacts.

(** * Part III: further properties of the code *)

(** ** The session store: round trips, deletion, eviction *)

Module SessionStoreLaws.
Import SessionStore SessionStoreFacts.
Section WithEncoding.
Context {ndarray : Type}.
Implicit Types sessions : gmap string (SessionData ndarray).

(** X3: a stored encoding is what [retrieve] returns, whatever was stored
    under the id before (the second [store] wins); the read only moves
    last_accessed; no other session is affected by the store, neither its
    entry nor what a later [retrieve] of it returns; and the number of
    sessions grows by one exactly when the id is new. *)
Theorem store_then_retrieve sessions id enc t1 t2 now :
  retrieve id now (store id enc t1 t2 sessions)
    = (Some enc, store id enc t1 now sessions) /\
  (forall old t1' t2',
     store id enc t1 t2 (store id old t1' t2' sessions)
       = store id enc t1 t2 sessions) /\
  (forall id', id' <> id ->
     store id enc t1 t2 sessions !! id' = sessions !! id') /\
  (forall id', id' <> id ->
     (retrieve id' now (store id enc t1 t2 sessions)).1
       = (retrieve id' now sessions).1) /\
  size (store id enc t1 t2 sessions)
    = match sessions !! id with
      | Some _ => size sessions
      | None => S (size sessions)
      end.
Proof.
  split_and!.
  - unfold retrieve, store. rewrite lookup_insert_eq. simpl.
    by rewrite insert_insert_eq.
  - intros old t1' t2'. unfold store. apply insert_insert_eq.
  - intros id' Hne. unfold store. by apply lookup_insert_ne.
  - intros id' Hne. unfold retrieve, store.
    rewrite lookup_insert_ne by done. by destruct (sessions !! id').
  - unfold store. rewrite map_size_insert. by destruct (sessions !! id).
Qed.

(** X4: [delete] answers whether the id was there, removes that session and
    no other, makes a later [retrieve] miss, and answers [False] when
    repeated. *)
Theorem delete_removes_one_session sessions id now :
  ((delete id sessions).1 = true <-> is_Some (sessions !! id)) /\
  (delete id sessions).2 !! id = None /\
  (forall id', id' <> id ->
     (delete id sessions).2 !! id' = sessions !! id') /\
  retrieve id now (delete id sessions).2 = (None, (delete id sessions).2) /\
  delete id (delete id sessions).2 = (false, (delete id sessions).2) /\
  size (delete id sessions).2
    = match sessions !! id with
      | Some _ => pred (size sessions)
      | None => size sessions
      end.
Proof.
  unfold delete. destruct (sessions !! id) as [sd|] eqn:Hsd; cbn [fst snd].
  - split_and!.
    + split; [by eexists | done].
    + apply lookup_delete_eq.
    + intros id' Hne. by apply lookup_delete_ne.
    + unfold retrieve. by rewrite lookup_delete_eq.
    + by rewrite lookup_delete_eq.
    + rewrite map_size_delete. by rewrite Hsd.
  - split_and!.
    + split; [done | by intros [? ?]].
    + exact Hsd.
    + done.
    + unfold retrieve. by rewrite Hsd.
    + by rewrite Hsd.
    + done.
Qed.

Lemma cleanup_as_filter now sessions :
  (cleanup_expired_sessions now sessions).2
    = filter (fun kv => ~ (expired now kv.2 = true)) sessions.
Proof.
  apply map_eq. intros id. rewrite lookup_cleanup, map_lookup_filter.
  destruct (sessions !! id) as [sd|]; [|done]. simpl.
  destruct (expired now sd) eqn:Hexp.
  - by rewrite option_guard_False by (by intros H; apply H).
  - by rewrite option_guard_True by congruence.
Qed.

Lemma cleanup_nothing_expired now sessions :
  (forall id sd, sessions !! id = Some sd -> expired now sd = false) ->
  cleanup_expired_sessions now sessions = (0, sessions).
Proof.
  intros Hfresh. unfold cleanup_expired_sessions, expired_sessions.
  rewrite BatchFacts.filter_none; [done|].
  apply Forall_forall. intros [id sd] Hin%elem_of_map_to_list. simpl.
  by rewrite (Hfresh id sd Hin).
Qed.

(** X5: [cleanup_expired_sessions] never alters a session it keeps and keeps
    only sessions idle for at most the TTL; the number it returns plus the
    number of sessions left is the number there was; run again at the same
    or an earlier time it removes nothing and returns 0. *)
Theorem cleanup_only_removes sessions now :
  (forall id sd, (cleanup_expired_sessions now sessions).2 !! id = Some sd ->
     sessions !! id = Some sd /\ now - last_accessed sd <= session_ttl) /\
  (cleanup_expired_sessions now sessions).1
    + Z.of_nat (size (cleanup_expired_sessions now sessions).2)
    = Z.of_nat (size sessions) /\
  (forall earlier, earlier <= now ->
     cleanup_expired_sessions earlier (cleanup_expired_sessions now sessions).2
       = (0, (cleanup_expired_sessions now sessions).2)).
Proof.
  assert (forall id sd,
            (cleanup_expired_sessions now sessions).2 !! id = Some sd ->
            sessions !! id = Some sd /\ now - last_accessed sd <= session_ttl)
    as Hkept.
  { intros id sd. rewrite lookup_cleanup.
    destruct (sessions !! id) as [sd'|]; [|done].
    destruct (expired now sd') eqn:Hexp; [done|]. intros [= ->].
    split; [done|]. destruct (Z.gtb_spec (now - last_accessed sd) session_ttl)
      as [Hgt|Hle]; [|lia].
    apply Z.gt_lt_iff, expired_spec in Hgt. congruence. }
  split_and!.
  - exact Hkept.
  - rewrite count_cleanup, cleanup_as_filter.
    rewrite <- (map_filter_union_complement
                  (fun kv => expired now kv.2 = true) sessions) at 3.
    rewrite map_size_disj_union by apply map_disjoint_filter_complement. lia.
  - intros earlier Hle. apply cleanup_nothing_expired.
    intros id sd [_ Hidle]%Hkept.
    destruct (expired earlier sd) eqn:Hexp; [|done].
    apply expired_spec in Hexp. lia.
Qed.

End WithEncoding.
End SessionStoreLaws.

(** ** The job store: identity of jobs, deletion, percentages *)

Module JobStoreLaws.
Import JobStore JobStoreFacts Vocabulary.

Lemma lookup_run_call c jobs id :
  run_call jobs c !! id = None <-> jobs !! id = None.
Proof.
  destruct c as [id0 current found|id0 ms|id0 err]; simpl;
    [rewrite lookup_update_progress | rewrite lookup_complete_job
    | rewrite lookup_fail_job];
    (case_decide; [subst; by destruct (jobs !! id) | done]).
Qed.

Lemma run_call_identity c jobs id job job' :
  jobs !! id = Some job -> run_call jobs c !! id = Some job' ->
  job_id job' = job_id job /\ total_images job' = total_images job /\
  created_at job' = created_at job.
Proof.
  intros Hjob.
  destruct c as [id0 current found|id0 ms|id0 err]; simpl;
    [rewrite lookup_update_progress | rewrite lookup_complete_job
    | rewrite lookup_fail_job];
    (case_decide; [subst; rewrite Hjob; simpl | rewrite Hjob]);
    intros [= <-]; done.
Qed.

Lemma run_calls_identity cs jobs id :
  (jobs !! id = None -> run_calls cs jobs !! id = None) /\
  (forall job, jobs !! id = Some job ->
     exists job', run_calls cs jobs !! id = Some job' /\
       job_id job' = job_id job /\ total_images job' = total_images job /\
       created_at job' = created_at job).
Proof.
  revert jobs. induction cs as [|c cs IH]; intros jobs.
  - split; [done|]. intros job Hjob. by exists job.
  - cbn [run_calls foldl]. destruct (IH (run_call jobs c)) as [IHn IHs]. split.
    + intros Hnone. apply IHn. by apply lookup_run_call.
    + intros job Hjob.
      destruct (run_call jobs c !! id) as [job1|] eqn:H1;
        [|by apply lookup_run_call in H1; congruence].
      destruct (run_call_identity c jobs id job job1 Hjob H1) as (? & ? & ?).
      destruct (IHs job1 eq_refl) as (job' & Hrun & ? & ? & ?).
      exists job'. split; [exact Hrun|]. split_and!; congruence.
Qed.

(** X6: whatever sequence of [update_progress], [complete_job] and
    [fail_job] calls is made, no job is created or removed, and every job
    keeps its job_id, total_images and created_at. *)
Theorem calls_keep_job_identity cs jobs id :
  (jobs !! id = None -> run_calls cs jobs !! id = None) /\
  (forall job, jobs !! id = Some job ->
     exists job', run_calls cs jobs !! id = Some job' /\
       job_id job' = job_id job /\ total_images job' = total_images job /\
       created_at job' = created_at job).
Proof. apply run_calls_identity. Qed.

(** X7: [delete_job] answers whether the job was there and removes that job
    and no other; afterwards the status request answers 404 "Job not
    found", and no later call of a running batch brings the job back. *)
Theorem delete_job_is_final jobs id cs :
  ((delete_job id jobs).1 = true <-> is_Some (jobs !! id)) /\
  (forall id', id' <> id -> (delete_job id jobs).2 !! id' = jobs !! id') /\
  Api.get_job_status id (delete_job id jobs).2
    = Api.HTTPException 404 "Job not found" /\
  Api.get_job_status id (run_calls cs (delete_job id jobs).2)
    = Api.HTTPException 404 "Job not found" /\
  delete_job id (delete_job id jobs).2 = (false, (delete_job id jobs).2).
Proof.
  assert ((delete_job id jobs).2 !! id = None) as Hgone.
  { unfold delete_job. destruct (jobs !! id) eqn:Hjob; simpl;
      [apply lookup_delete_eq | done]. }
  split_and!.
  - unfold delete_job. destruct (jobs !! id); simpl.
    + split; [by eexists | done].
    + split; [done | by intros [? ?]].
  - intros id' Hne. unfold delete_job.
    destruct (jobs !! id); simpl; [by apply lookup_delete_ne | done].
  - unfold Api.get_job_status, get_job. by rewrite Hgone.
  - unfold Api.get_job_status, get_job.
    by rewrite (proj1 (run_calls_identity cs _ id) Hgone).
  - unfold delete_job at 1. by rewrite Hgone.
Qed.

Lemma percent_rows_upto_200 :
  forallb percent_row (map Z.of_nat (seq 1 200)) = true.
Proof. vm_compute. reflexivity. Qed.

Lemma forallb_range (f : Z -> bool) (a n : nat) z :
  forallb f (map Z.of_nat (seq a n)) = true ->
  Z.of_nat a <= z < Z.of_nat a + Z.of_nat n -> f z = true.
Proof.
  intros Hall Hz. rewrite List.forallb_forall in Hall. apply Hall.
  apply in_map_iff. exists (Z.to_nat z). split; [lia|]. apply in_seq. lia.
Qed.

Lemma percent_checked total current :
  0 < total <= 200 -> 0 <= current <= total ->
  percent_ok total current = true /\
  progress_percent 0 total = 0 /\ progress_percent total total = 100.
Proof.
  intros Ht Hc.
  pose proof (forallb_range percent_row 1 200 total percent_rows_upto_200
                ltac:(lia)) as Hrow.
  unfold percent_row in Hrow.
  apply andb_prop in Hrow as [Hrow Hfull].
  apply andb_prop in Hrow as [Hrow H0].
  apply Z.eqb_eq in Hfull, H0. split; [|by split].
  apply (forallb_range _ 0 (S (Z.to_nat total)) current Hrow). lia.
Qed.

(** X8: for a batch of at most 200 images the stored percentage is
    [floor(current * 100 / total)] or one below it, lies within 0..100, is 0
    before the first image and 100 at the last, and never decreases as
    [current] grows. *)
Theorem progress_percent_within_one total current later :
  0 < total <= 200 -> 0 <= current <= later -> later <= total ->
  (progress_percent current total = current * 100 / total \/
   progress_percent current total = current * 100 / total - 1) /\
  0 <= progress_percent current total <= 100 /\
  progress_percent 0 total = 0 /\
  progress_percent total total = 100 /\
  progress_percent current total <= progress_percent later total.
Proof.
  intros Ht Hc Hl.
  destruct (percent_checked total current Ht ltac:(lia)) as (Hok & H0 & H100).
  unfold percent_ok in Hok. rewrite !andb_true_iff, orb_true_iff in Hok.
  destruct Hok as [[[Hnear Hlo] Hhi] _].
  split_and!; [lia | lia | lia | exact H0 | exact H100 |].
  assert (forall n : nat,
            current + Z.of_nat n <= total ->
            progress_percent current total
              <= progress_percent (current + Z.of_nat n) total) as Hmono.
  { induction n as [|n IH]; intros Hn.
    - replace (current + Z.of_nat 0) with current by lia. lia.
    - specialize (IH ltac:(lia)).
      destruct (percent_checked total (current + Z.of_nat n) Ht ltac:(lia))
        as (Hok' & _ & _).
      unfold percent_ok in Hok'. rewrite !andb_true_iff in Hok'.
      destruct Hok' as [_ Hstep].
      replace (current + Z.of_nat (S n)) with (current + Z.of_nat n + 1)
        by lia. lia. }
  specialize (Hmono (Z.to_nat (later - current)) ltac:(lia)).
  replace (current + Z.of_nat (Z.to_nat (later - current))) with later
    in Hmono by lia.
  exact Hmono.
Qed.

Lemma progress_percent_within_one_witness :
  (progress_percent 29 100 = 29 * 100 / 100 \/
   progress_percent 29 100 = 29 * 100 / 100 - 1) /\
  0 <= progress_percent 29 100 <= 100 /\
  progress_percent 0 100 = 0 /\
  progress_percent 100 100 = 100 /\
  progress_percent 29 100 <= progress_percent 30 100.
Proof.
  apply (progress_percent_within_one 100 29 30); lia.
Defined.

End JobStoreLaws.

(** ** The batch processor: composition, progress, frame *)

Module BatchLaws.
Import JobStore Batch PyFloat Vocabulary BatchFacts.

Section WithOracle.
Context {ndarray image_array location : Type}.
Variable load_image : string -> option image_array.
Variable face_locations : image_array -> option (list location).
Variable face_encodings : image_array -> list location -> option (list ndarray).
Variable face_distance : ndarray -> ndarray -> float.

Local Abbreviation process_image :=
  (Batch.process_image load_image face_locations face_encodings face_distance).
Local Abbreviation batch_loop :=
  (Batch.batch_loop load_image face_locations face_encodings face_distance).
Local Abbreviation batch_calls :=
  (Batch.batch_calls load_image face_locations face_encodings face_distance).
Local Abbreviation process_batch_background :=
  (Batch.process_batch_background load_image face_locations face_encodings
     face_distance).
Local Abbreviation task_step :=
  (Batch.task_step load_image face_locations face_encodings face_distance).
Local Abbreviation run_action :=
  (Batch.run_action load_image face_locations face_encodings face_distance).
Local Abbreviation run_schedule :=
  (Batch.run_schedule load_image face_locations face_encodings face_distance).
Local Abbreviation raises :=
  (Batch.raises load_image face_locations face_encodings).

Lemma process_image_alone base idx img ms :
  process_image base idx img ms =
    (fun l => ms ++ l) <$> process_image base idx img [].
Proof.
  unfold Batch.process_image.
  destruct (load_image img) as [arr|]; simpl; [|done].
  destruct (face_locations arr) as [locs|]; simpl; [|done].
  destruct (len locs >? 0); simpl; [|by rewrite app_nil_r].
  destruct (face_encodings arr locs) as [encs|]; simpl; [|done].
  destruct (best_distance face_distance base encs <=? 0.7)%float; simpl;
    [done | by rewrite app_nil_r].
Qed.

Lemma batch_loop_per_image job_id base images idx (n : nat) ms :
  idx = Z.of_nat n ->
  (batch_loop job_id base images idx ms).2 =
    ms ++ concat (imap (fun i img =>
                          default [] (process_image base (Z.of_nat (n + i)) img []))
                    images).
Proof.
  revert idx n ms. induction images as [|img rest IH]; intros idx n ms ->.
  - simpl. by rewrite app_nil_r.
  - rewrite imap_cons. cbn [Batch.batch_loop concat].
    replace (Z.of_nat (n + 0)) with (Z.of_nat n) by (f_equal; lia).
    assert (imap ((fun i img0 =>
                     default [] (process_image base (Z.of_nat (n + i)) img0 []))
                  ∘ S) rest =
            imap (fun i img0 =>
                    default [] (process_image base (Z.of_nat (S n + i)) img0 []))
              rest) as ->.
    { apply imap_ext. intros i x _. simpl. do 3 f_equal. lia. }
    rewrite (process_image_alone base (Z.of_nat n) img ms).
    destruct (process_image base (Z.of_nat n) img []) as [l|];
      cbn -[Z.of_nat Nat.add Z.add].
    + specialize (IH (Z.of_nat n + 1) (S n) (ms ++ l) ltac:(lia)).
      destruct (batch_loop job_id base rest (Z.of_nat n + 1) (ms ++ l))
        as [calls final].
      cbn [snd] in *. by rewrite IH, <- app_assoc.
    + apply (IH (Z.of_nat n + 1) (S n) ms). lia.
Qed.

(** X9: the match list of a batch is the concatenation, in submission
    order, of what each image yields when processed alone at its index:
    one entry, or nothing for an image that raises, shows no face or has no
    face within 0.7.  No image influences the result of another, and the
    job id plays no part. *)
Theorem matches_are_per_image job_id base images :
  (batch_loop job_id base images 0 []).2 =
    concat (imap (fun i img =>
                    default [] (process_image base (Z.of_nat i) img []))
              images) /\
  (forall i img, (length (default [] (process_image base i img [])) <= 1)%nat) /\
  (forall i img, raises img = true ->
     default [] (process_image base i img []) = []).
Proof.
  split_and!.
  - apply (batch_loop_per_image job_id base images 0 0 []). done.
  - intros i img.
    destruct (process_image base i img []) as [l|] eqn:Hp; simpl; [|lia].
    apply process_image_appends in Hp as [->|(d & _ & ->)]; simpl; lia.
  - intros i img Hr.
    apply (process_image_raises load_image face_locations face_encodings
             face_distance base i img []) in Hr.
    by rewrite Hr.
Qed.

Lemma batch_loop_progress job_id base images idx ms :
  Forall (fun cf => idx + 1 <= cf.1 <= idx + len images /\
                    len ms <= cf.2 <= len ms + (cf.1 - idx) /\
                    cf.2 <= len (batch_loop job_id base images idx ms).2)
    (progress_args (batch_loop job_id base images idx ms).1) /\
  StronglySorted (fun a b => a.1 < b.1 /\ a.2 <= b.2)
    (progress_args (batch_loop job_id base images idx ms).1) /\
  len ms <= len (batch_loop job_id base images idx ms).2.
Proof.
  revert idx ms. induction images as [|img rest IH]; intros idx ms.
  - simpl. split_and!; [constructor | constructor | lia].
  - cbn [Batch.batch_loop]. rewrite len_cons.
    pose proof (len_nonneg rest) as Hrest.
    destruct (process_image base idx img ms) as [ms'|] eqn:Hp.
    + destruct (IH (idx + 1) ms') as (Hall & Hsorted & Hlen).
      assert (len ms <= len ms' <= len ms + 1) as Hms.
      { apply process_image_appends in Hp as [->|(d & _ & ->)];
          [lia | rewrite len_app; unfold len; simpl; lia]. }
      destruct (batch_loop job_id base rest (idx + 1) ms') as [calls final].
      cbn [fst snd progress_args omap list_omap] in *.
      fold (progress_args calls). split_and!.
      * constructor; [simpl; lia|].
        eapply Forall_impl; [exact Hall|]. intros [c f]. simpl. lia.
      * constructor; [exact Hsorted|].
        eapply Forall_impl; [exact Hall|]. intros [c f]. simpl. lia.
      * lia.
    + destruct (IH (idx + 1) ms) as (Hall & Hsorted & Hlen).
      split_and!; [|exact Hsorted|exact Hlen].
      eapply Forall_impl; [exact Hall|]. intros [c f]. simpl. lia.
Qed.

(** X10: along the [update_progress] calls of a batch of N images,
    current_image strictly increases within 1..N and matches_found never
    decreases, stays between 0 and current_image and never exceeds the
    length of the final match list. *)
Theorem progress_calls_advance job_id base images :
  Forall (fun cf => 1 <= cf.1 <= len images /\ 0 <= cf.2 <= cf.1 /\
                    cf.2 <= len (batch_loop job_id base images 0 []).2)
    (progress_args (batch_loop job_id base images 0 []).1) /\
  StronglySorted (fun a b => a.1 < b.1 /\ a.2 <= b.2)
    (progress_args (batch_loop job_id base images 0 []).1).
Proof.
  destruct (batch_loop_progress job_id base images 0 []) as (Hall & Hs & _).
  split; [|exact Hs].
  eapply Forall_impl; [exact Hall|]. intros [c f]. unfold len. simpl. lia.
Qed.

Lemma run_calls_other cs jobs id id' :
  Forall (fun c => call_id c = id) cs -> id' <> id ->
  run_calls cs jobs !! id' = jobs !! id'.
Proof.
  intros Hcs Hne. revert jobs.
  induction Hcs as [|c cs Hc _ IH]; intros jobs; [done|].
  cbn [run_calls foldl]. unfold run_calls in IH. rewrite IH.
  destruct c as [id0 current found|id0 ms|id0 err]; simpl in *; subst id0;
    [rewrite JobStoreFacts.lookup_update_progress
    | rewrite JobStoreFacts.lookup_complete_job
    | rewrite JobStoreFacts.lookup_fail_job];
    by rewrite decide_False.
Qed.

Lemma batch_loop_call_ids job_id base images idx ms :
  Forall (fun c => call_id c = job_id) (batch_loop job_id base images idx ms).1.
Proof.
  revert idx ms. induction images as [|img rest IH]; intros idx ms.
  - constructor.
  - cbn [Batch.batch_loop].
    destruct (process_image base idx img ms) as [ms'|]; [|apply IH].
    specialize (IH (idx + 1) ms').
    destruct (batch_loop job_id base rest (idx + 1) ms').
    by constructor.
Qed.

Lemma batch_calls_call_ids job_id base images :
  Forall (fun c => call_id c = job_id) (batch_calls job_id base images).
Proof.
  unfold Batch.batch_calls. destruct base as [b|]; [|by repeat constructor].
  pose proof (batch_loop_call_ids job_id b images 0 []) as H.
  destruct (batch_loop job_id b images 0 []). apply Forall_app.
  split; [exact H | by repeat constructor].
Qed.

Lemma batch_loop_frame job_id base images idx ms jobs job :
  jobs !! job_id = Some job ->
  exists job1,
    run_calls (batch_loop job_id base images idx ms).1 jobs !! job_id
      = Some job1 /\
    status job1 = status job /\ error job1 = error job /\
    matches job1 = matches job /\ total_images job1 = total_images job /\
    (Forall (fun img => raises img = true) images -> job1 = job).
Proof.
  revert idx ms jobs job.
  induction images as [|img rest IH]; intros idx ms jobs job Hjob.
  - exists job. by split_and!.
  - cbn [Batch.batch_loop].
    destruct (process_image base idx img ms) as [ms'|] eqn:Hp.
    + specialize (IH (idx + 1) ms'
                    (update_progress job_id (idx + 1) (len ms') jobs)
                    (progressed (idx + 1) (len ms') job)).
      destruct IH as (job1 & H1 & ? & ? & ? & ? & _).
      { rewrite JobStoreFacts.lookup_update_progress, decide_True, Hjob; done. }
      destruct (batch_loop job_id base rest (idx + 1) ms') as [calls final].
      exists job1. cbn [fst run_calls foldl run_call] in *.
      split_and!; try done.
      intros [Hr _]%Forall_cons.
      apply (process_image_raises load_image face_locations face_encodings
               face_distance base idx img ms) in Hr. congruence.
    + destruct (IH (idx + 1) ms jobs job Hjob)
        as (job1 & H1 & ? & ? & ? & ? & Hsame).
      exists job1. split_and!; try done.
      intros [_ Hr]%Forall_cons. by apply Hsame.
Qed.

Lemma batch_loop_all_raise job_id base images idx ms :
  Forall (fun img => raises img = true) images ->
  batch_loop job_id base images idx ms = ([], ms).
Proof.
  revert idx. induction images as [|img rest IH]; intros idx Hall; [done|].
  apply Forall_cons in Hall as [Hr Hall]. cbn [Batch.batch_loop].
  apply (process_image_raises load_image face_locations face_encodings
           face_distance base idx img ms) in Hr.
  rewrite Hr. by apply IH.
Qed.

(** X11: a batch run leaves its job terminal.  With the session found the
    job is completed, at 100 percent, with the match list of the loop and
    matches_found its length; without it the job is failed with "Session
    not found" and keeps its matches, current_image and progress.
    total_images is the same either way. *)
Theorem job_is_terminal_after_batch job_id session_id images now w job :
  job_store w !! job_id = Some job ->
  exists job',
    job_store (process_batch_background job_id session_id images now w)
      !! job_id = Some job' /\
    total_images job' = total_images job /\
    match session_store w !! session_id with
    | Some sd =>
        status job' = "completed" /\ progress job' = 100 /\
        matches job' =
          (batch_loop job_id (SessionStore.encoding sd) images 0 []).2 /\
        matches_found job' = len (matches job') /\
        error job' = error job
    | None =>
        status job' = "failed" /\ error job' = Some "Session not found" /\
        matches job' = matches job /\
        current_image job' = current_image job /\
        progress job' = progress job
    end.
Proof.
  intros Hjob. unfold Batch.process_batch_background, SessionStore.retrieve.
  destruct (session_store w !! session_id) as [sd|]; cbn [job_store].
  - unfold Batch.batch_calls.
    destruct (batch_loop_frame job_id (SessionStore.encoding sd) images 0 []
                (job_store w) job Hjob) as (job1 & H1 & _ & Herr & _ & Htot & _).
    destruct (batch_loop job_id (SessionStore.encoding sd) images 0 [])
      as [calls final]. cbn [fst snd] in *.
    unfold run_calls in *. rewrite foldl_app. cbn [foldl run_call].
    rewrite JobStoreFacts.lookup_complete_job, decide_True, H1 by done.
    eexists. split; [reflexivity|]. simpl. by split_and!.
  - cbn [Batch.batch_calls run_calls foldl run_call].
    rewrite JobStoreFacts.lookup_fail_job, decide_True, Hjob by done.
    eexists. split; [reflexivity|]. simpl. by split_and!.
Qed.

(** X12: a batch run touches one job and one session: every other job and
    every other session is as before, a job that is not there is not
    created, and the session read keeps its encoding and created_at. *)
Theorem batch_touches_one_job_and_one_session job_id session_id images now w :
  (forall id', id' <> job_id ->
     job_store (process_batch_background job_id session_id images now w) !! id'
       = job_store w !! id') /\
  (job_store w !! job_id = None ->
     job_store (process_batch_background job_id session_id images now w)
       !! job_id = None) /\
  (forall sid', sid' <> session_id ->
     session_store (process_batch_background job_id session_id images now w)
       !! sid' = session_store w !! sid') /\
  (fun sd => (SessionStore.encoding sd, SessionStore.created_at sd)) <$>
     session_store (process_batch_background job_id session_id images now w)
       !! session_id
   = (fun sd => (SessionStore.encoding sd, SessionStore.created_at sd)) <$>
       session_store w !! session_id.
Proof.
  unfold Batch.process_batch_background, SessionStore.retrieve.
  destruct (session_store w !! session_id) as [sd|] eqn:Hsd;
    cbn [job_store session_store]; split_and!.
  - intros id' Hne. apply run_calls_other with job_id;
      [apply batch_calls_call_ids | done].
  - apply JobStoreLaws.run_calls_identity.
  - intros sid' Hne. by apply lookup_insert_ne.
  - by rewrite lookup_insert_eq.
  - intros id' Hne. apply run_calls_other with job_id;
      [apply batch_calls_call_ids | done].
  - apply JobStoreLaws.run_calls_identity.
  - done.
  - by rewrite Hsd.
Qed.

(** X13: a batch in which every image raises (the empty batch included)
    still completes: no [update_progress] is made, the job ends completed
    at 100 percent with no match and the current_image it had, and the
    status response carries no matches list. *)
Theorem unreadable_batch_completes job_id session_id images now w job sd :
  job_store w !! job_id = Some job ->
  session_store w !! session_id = Some sd ->
  Forall (fun img => raises img = true) images ->
  batch_calls job_id (Some (SessionStore.encoding sd)) images
    = [CompleteJob job_id []] /\
  exists resp,
    Api.get_job_status job_id
      (job_store (process_batch_background job_id session_id images now w))
      = Api.Ok resp /\
    Api.status resp = "completed" /\ Api.progress resp = 100 /\
    Api.matches_found resp = 0 /\ Api.matches resp = None /\
    Api.current_image resp = current_image job /\
    Api.total_images resp = total_images job.
Proof.
  intros Hjob Hsd Hall.
  assert (batch_calls job_id (Some (SessionStore.encoding sd)) images
            = [CompleteJob job_id []]) as Hcalls.
  { unfold Batch.batch_calls. by rewrite batch_loop_all_raise. }
  split; [exact Hcalls|].
  unfold Batch.process_batch_background, SessionStore.retrieve.
  rewrite Hsd. cbn [job_store]. rewrite Hcalls.
  cbn [run_calls foldl run_call].
  unfold Api.get_job_status, get_job.
  rewrite JobStoreFacts.lookup_complete_job, decide_True, Hjob by done.
  eexists. split; [reflexivity|]. by split_and!.
Qed.

Lemma progress_inv_bounds job_id n (t : @task ndarray) jobs :
  progress_inv job_id n t jobs ->
  exists c, current_of job_id jobs = Some c /\ 0 <= c <= n.
Proof.
  intros (job & Hjob & Ht). exists (current_image job).
  unfold current_of. rewrite Hjob. split; [done|].
  destruct t as [j s images|j base idx rest ms|].
  - destruct Ht as (_ & <- & ->). pose proof (len_nonneg images). lia.
  - destruct Ht as (_ & ? & <-). pose proof (len_nonneg rest). lia.
  - done.
Qed.

Lemma run_action_progress job_id n tw a :
  progress_inv job_id n tw.1 (job_store tw.2) ->
  progress_inv job_id n (run_action tw a).1 (job_store (run_action tw a).2) /\
  exists c c', current_of job_id (job_store tw.2) = Some c /\
    current_of job_id (job_store (run_action tw a).2) = Some c' /\ c <= c'.
Proof.
  destruct tw as [t w]. intros (job & Hjob & Ht). cbn [fst snd] in *.
  unfold progress_inv, current_of.
  destruct a as [now|op]; cbn [Batch.run_action fst snd job_store];
    [|rewrite Hjob; split; [by exists job | exists (current_image job),
        (current_image job); by split_and!]].
  destruct t as [j s images|j base idx [|img rest] ms|];
    cbn [Batch.task_step].
  - destruct Ht as (-> & Hlen & Hcur).
    destruct (SessionStore.retrieve s now (session_store w)) as [[b|] ss];
      cbn [fst snd job_store].
    + rewrite Hjob. split; [exists job; split; [done|]; split_and!; (done || lia)|].
      exists (current_image job), (current_image job). by split_and!.
    + rewrite JobStoreFacts.lookup_fail_job, decide_True, Hjob by done.
      pose proof (len_nonneg images). split.
      * eexists. split; [reflexivity|]. simpl. split_and!; (done || lia).
      * exists (current_image job), (current_image job). by split_and!.
  - destruct Ht as (-> & Hcur & Hn). cbn [fst snd job_store].
    rewrite JobStoreFacts.lookup_complete_job, decide_True, Hjob by done.
    split.
    + eexists. split; [reflexivity|]. simpl. unfold len in Hn. simpl in Hn. lia.
    + exists (current_image job), (current_image job). by split_and!.
  - destruct Ht as (-> & Hcur & Hn). rewrite len_cons in Hn.
    destruct (process_image base idx img ms) as [ms'|];
      cbn [fst snd job_store].
    + rewrite JobStoreFacts.lookup_update_progress, decide_True, Hjob by done.
      split.
      * eexists. split; [reflexivity|]. simpl. split_and!; (done || lia).
      * exists (current_image job), (idx + 1). simpl. split_and!; [done|done|lia].
    + rewrite Hjob. split; [exists job; split; [done|]; split_and!; (done || lia)|].
      exists (current_image job), (current_image job). by split_and!.
  - cbn [fst snd]. rewrite Hjob. split; [by exists job|].
    exists (current_image job), (current_image job). by split_and!.
Qed.

Lemma run_schedule_progress job_id n acts tw :
  progress_inv job_id n tw.1 (job_store tw.2) ->
  progress_inv job_id n (run_schedule acts tw).1
    (job_store (run_schedule acts tw).2) /\
  exists c c', current_of job_id (job_store tw.2) = Some c /\
    current_of job_id (job_store (run_schedule acts tw).2) = Some c' /\
    c <= c'.
Proof.
  revert tw. induction acts as [|a acts IH]; intros tw Hinv.
  - split; [done|].
    destruct (progress_inv_bounds _ _ _ _ Hinv) as (c & Hc & _).
    exists c, c. by split_and!.
  - cbn [Batch.run_schedule foldl].
    destruct (run_action_progress job_id n tw a Hinv)
      as (Hinv' & c & c1 & Hc & Hc1 & Hle).
    destruct (IH _ Hinv') as (Hinv'' & c1' & c2 & Hc1' & Hc2 & Hle').
    split; [exact Hinv''|]. exists c, c2. split_and!; [done|done|].
    unfold Batch.run_schedule in *. rewrite Hc1 in Hc1'.
    injection Hc1' as <-. lia.
Qed.

(** X14: a job created with current_image 0 and handed to its task is never
    seen going backwards: at any two points of any interleaving of the
    task's steps with session operations, the earlier current_image is at
    most the later one, and both lie within 0..N for the N images. *)
Theorem polled_progress_never_goes_back job_id session_id images w job
    (acts1 acts2 : list (@action ndarray)) :
  job_store w !! job_id = Some job ->
  current_image job = 0 ->
  exists c1 c2,
    current_of job_id
      (job_store (run_schedule acts1
                    (Starting job_id session_id images, w)).2) = Some c1 /\
    current_of job_id
      (job_store (run_schedule (acts1 ++ acts2)
                    (Starting job_id session_id images, w)).2) = Some c2 /\
    0 <= c1 <= c2 /\ c2 <= len images.
Proof.
  intros Hjob Hcur.
  set (tw := (@Starting ndarray job_id session_id images, w)).
  assert (progress_inv job_id (len images) tw.1 (job_store tw.2)) as Hinv.
  { exists job. by split_and!. }
  destruct (run_schedule_progress job_id (len images) acts1 _ Hinv)
    as (Hinv1 & _ & c1 & _ & Hc1 & _).
  destruct (run_schedule_progress job_id (len images) acts2 _ Hinv1)
    as (Hinv2 & c1' & c2 & Hc1' & Hc2 & Hle).
  rewrite Hc1 in Hc1'. injection Hc1' as <-.
  destruct (progress_inv_bounds _ _ _ _ Hinv1) as (c & Hc & Hb1).
  destruct (progress_inv_bounds _ _ _ _ Hinv2) as (c' & Hc' & Hb2).
  rewrite Hc1 in Hc. injection Hc as <-.
  rewrite Hc2 in Hc'. injection Hc' as <-.
  exists c1, c2. unfold Batch.run_schedule in *. rewrite foldl_app.
  split_and!; [done|done|lia|lia|lia].
Qed.

End WithOracle.

(** *** On the sample library *)

Local Abbreviation sample_process_batch_background :=
  (Batch.process_batch_background Sample.load_image Sample.face_locations
     Sample.face_encodings Sample.face_distance).
Local Abbreviation sample_batch_calls :=
  (Batch.batch_calls Sample.load_image Sample.face_locations
     Sample.face_encodings Sample.face_distance).
Local Abbreviation sample_batch_loop :=
  (Batch.batch_loop Sample.load_image Sample.face_locations
     Sample.face_encodings Sample.face_distance).
Local Abbreviation sample_run_schedule :=
  (Batch.run_schedule Sample.load_image Sample.face_locations
     Sample.face_encodings Sample.face_distance).

Lemma scenario_has_job :
  job_store Sample.scenario !! "job-1" = Some (new_job "job-1" 3 1).
Proof. vm_compute. reflexivity. Qed.

Lemma scenario_has_session :
  session_store Sample.scenario !! "s1"
    = Some {| SessionStore.encoding := 0%float;
              SessionStore.created_at := 0;
              SessionStore.last_accessed := 0 |}.
Proof. vm_compute. reflexivity. Qed.

Lemma job_is_terminal_after_batch_witness :
  exists job',
    job_store (sample_process_batch_background "job-1" "s1"
                 Sample.scenario_images 2 Sample.scenario) !! "job-1"
      = Some job' /\
    status job' = "completed" /\ progress job' = 100 /\
    matches_found job' = len (matches job').
Proof.
  destruct (job_is_terminal_after_batch Sample.load_image
              Sample.face_locations Sample.face_encodings
              Sample.face_distance "job-1" "s1" Sample.scenario_images 2
              Sample.scenario _ scenario_has_job) as (job' & Hrun & _ & Hcase).
  rewrite scenario_has_session in Hcase.
  destruct Hcase as (Hs & Hp & _ & Hm & _).
  exists job'. by split_and!.
Defined.

Lemma unreadable_batch_completes_witness :
  sample_batch_calls "job-1" (Some 0%float) ["corrupt"; "corrupt"]
    = [CompleteJob "job-1" []] /\
  exists resp,
    Api.get_job_status "job-1"
      (job_store (sample_process_batch_background "job-1" "s1"
                    ["corrupt"; "corrupt"] 2 Sample.scenario))
      = Api.Ok resp /\
    Api.status resp = "completed" /\ Api.progress resp = 100 /\
    Api.matches_found resp = 0 /\ Api.matches resp = None /\
    Api.current_image resp = 0 /\ Api.total_images resp = 3.
Proof.
  apply (unreadable_batch_completes Sample.load_image Sample.face_locations
           Sample.face_encodings Sample.face_distance "job-1" "s1"
           ["corrupt"; "corrupt"] 2 Sample.scenario (new_job "job-1" 3 1)
           _ scenario_has_job scenario_has_session).
  repeat constructor.
Defined.

(** The job is polled after the first image and again at the end, the
    session having been deleted in between: it is seen at image 1, then at
    image 3. *)
Lemma polled_progress_never_goes_back_witness :
  current_of "job-1"
    (job_store (sample_run_schedule Sample.first_steps
                  (Starting "job-1" "s1" Sample.scenario_images,
                   Sample.scenario)).2) = Some 1 /\
  current_of "job-1"
    (job_store (sample_run_schedule (Sample.first_steps ++ Sample.later_steps)
                  (Starting "job-1" "s1" Sample.scenario_images,
                   Sample.scenario)).2) = Some 3 /\
  exists c1 c2,
    current_of "job-1"
      (job_store (sample_run_schedule Sample.first_steps
                    (Starting "job-1" "s1" Sample.scenario_images,
                     Sample.scenario)).2) = Some c1 /\
    current_of "job-1"
      (job_store (sample_run_schedule
                    (Sample.first_steps ++ Sample.later_steps)
                    (Starting "job-1" "s1" Sample.scenario_images,
                     Sample.scenario)).2) = Some c2 /\
    0 <= c1 <= c2 /\ c2 <= len Sample.scenario_images.
Proof.
  split; [vm_compute; reflexivity|]. split; [vm_compute; reflexivity|].
  apply (polled_progress_never_goes_back Sample.load_image
           Sample.face_locations Sample.face_encodings Sample.face_distance
           "job-1" "s1" Sample.scenario_images Sample.scenario
           (new_job "job-1" 3 1) Sample.first_steps Sample.later_steps
           scenario_has_job eq_refl).
Defined.

End BatchLaws.

(** ** The handlers that write the session store *)

Module HandlersFacts.
Import Handlers.

Section WithOracle.
Context {ndarray image_array location : Type}.
Variable load_image : string -> option image_array.
Variable face_locations : image_array -> option (list location).
Variable face_encodings : image_array -> list location -> option (list ndarray).

Local Abbreviation register_face :=
  (Handlers.register_face load_image face_locations face_encodings).

(** X15: [register_face] succeeds exactly when the image decodes, shows one
    face and that face has an encoding; it then stores the first encoding
    under the session id, and a later [retrieve] returns it.  Every failure
    is a 400 or a 500 and leaves the session store untouched: an image that
    does not decode, shows no face or shows several faces is a 400. *)
Theorem register_face_outcomes session_id image t1 t2 now
    (sessions : gmap string (SessionStore.SessionData ndarray)) :
  ((register_face session_id image t1 t2 sessions).1
     = Api.Ok {| success := true |} <->
   exists arr loc enc encs,
     load_image image = Some arr /\ face_locations arr = Some [loc] /\
     face_encodings arr [loc] = Some (enc :: encs)) /\
  (forall arr loc enc encs,
     load_image image = Some arr -> face_locations arr = Some [loc] ->
     face_encodings arr [loc] = Some (enc :: encs) ->
     (register_face session_id image t1 t2 sessions).2
       = SessionStore.store session_id enc t1 t2 sessions /\
     (SessionStore.retrieve session_id now
        (register_face session_id image t1 t2 sessions).2).1 = Some enc) /\
  (forall code detail,
     (register_face session_id image t1 t2 sessions).1
       = Api.HTTPException code detail ->
     (register_face session_id image t1 t2 sessions).2 = sessions /\
     (code = 400 \/ code = 500)) /\
  (load_image image = None ->
     (register_face session_id image t1 t2 sessions).1
       = Api.HTTPException 400 "Invalid image format") /\
  (forall arr, load_image image = Some arr -> face_locations arr = Some [] ->
     (register_face session_id image t1 t2 sessions).1
       = Api.HTTPException 400 "No face detected in image") /\
  (forall arr loc1 loc2 locs, load_image image = Some arr ->
     face_locations arr = Some (loc1 :: loc2 :: locs) ->
     (register_face session_id image t1 t2 sessions).1
       = Api.HTTPException 400
           "Multiple faces detected, please use image with single face").
Proof.
  assert (forall (l1 l2 : location) ls,
            (len (l1 :: l2 :: ls) =? 0) = false /\
            (len (l1 :: l2 :: ls) >? 1) = true) as Hmany.
  { intros l1 l2 ls. unfold len. simpl length. split.
    - apply Z.eqb_neq. lia.
    - apply Z.gtb_lt. lia. }
  unfold Handlers.register_face.
  destruct (load_image image) as [arr|] eqn:Hload;
    [destruct (face_locations arr) as [[|loc1 [|loc2 locs]]|] eqn:Hlocs;
       [ | destruct (face_encodings arr [loc1]) as [[|enc encs]|] eqn:Hencs
         | destruct (Hmany loc1 loc2 locs) as [-> ->] | ] | ];
    clear Hmany; unfold len; cbn; split_and!; intros; simplify_eq;
    try naive_solver.
  change (Z.of_nat 1) with 1. cbn [Z.eqb Z.gtb Z.compare Pos.compare
    Pos.compare_cont fst snd].
  split; [done|]. unfold SessionStore.retrieve, SessionStore.store.
  by rewrite lookup_insert_eq.
Qed.

End WithOracle.

(** X16: [delete_session] answers [{"success": True}] exactly when the
    session was there and 404 "Session not found" otherwise; after it, in
    either case, [compare_batch] for that session answers 404, creates no
    job and schedules no task. *)
Theorem delete_session_then_compare_batch {ndarray} session_id images
    now_retrieve uuid now_create (w : @Batch.World ndarray) :
  ((delete_session session_id (Batch.session_store w)).1
     = Api.Ok [("success", true)] <->
   is_Some (Batch.session_store w !! session_id)) /\
  ((delete_session session_id (Batch.session_store w)).1
     = Api.HTTPException 404 "Session not found" <->
   Batch.session_store w !! session_id = None) /\
  Batch.compare_batch session_id images now_retrieve uuid now_create
    {| Batch.session_store :=
         (delete_session session_id (Batch.session_store w)).2;
       Batch.job_store := Batch.job_store w |}
  = (Api.HTTPException 404 "Session not found",
     {| Batch.session_store :=
          (delete_session session_id (Batch.session_store w)).2;
        Batch.job_store := Batch.job_store w |},
     None).
Proof.
  unfold delete_session, SessionStore.delete.
  destruct (Batch.session_store w !! session_id) as [sd|] eqn:Hsd;
    cbn [fst snd]; split_and!.
  - split; [by eexists | done].
  - split; [done | congruence].
  - unfold Batch.compare_batch, SessionStore.retrieve. cbn [Batch.session_store].
    by rewrite lookup_delete_eq.
  - split; [done | by intros [? ?]].
  - done.
  - unfold Batch.compare_batch, SessionStore.retrieve. cbn [Batch.session_store].
    by rewrite Hsd.
Qed.

End HandlersFacts.

(** ** backend/face-api: extensions and the matching loop *)

Module FaceApiFacts.
Import FaceApi.

Local Abbreviation dot := "."%char.
Local Abbreviation chars := String.list_ascii_of_string.

Lemma split_nonempty sep s : split sep s <> [].
Proof.
  destruct s as [|a rest]; simpl; [done|].
  destruct (Ascii.eqb a sep); [done|]. by destruct (split sep rest).
Qed.

Lemma last_cons_nonempty (x : string) l d :
  l <> [] -> List.last (x :: l) d = List.last l d.
Proof. by destruct l. Qed.

Lemma extension_shape name :
  (dot ∉ chars (extension name)) /\
  ((split "." name = [name] /\ (dot ∉ chars name)) \/
   (exists stem, name = stem +:+ "." +:+ extension name) /\
   (2 <= length (split "." name))%nat /\
   (dot ∈ chars name)).
Proof.
  unfold extension. induction name as [|a rest IH].
  - simpl. split; [apply not_elem_of_nil|]. left. split; [done|].
    apply not_elem_of_nil.
  - destruct IH as [Hext IH]. cbn [split].
    destruct (Ascii.eqb_spec a "."%char) as [->|Hne].
    + rewrite last_cons_nonempty by apply split_nonempty.
      split; [exact Hext|]. right. split_and!.
      * destruct IH as [[Hs _]|[[stem Hstem] _]].
        -- exists EmptyString. rewrite Hs. reflexivity.
        -- exists (String "." stem). rewrite Hstem at 1. reflexivity.
      * pose proof (split_nonempty "." rest).
        destruct (split "." rest); [done | simpl; lia].
      * simpl. left.
    + destruct IH as [[Hs Hno]|[[stem Hstem] [Hlen Hin]]].
      * rewrite Hs in *. simpl in *. split.
        -- intros [Heq|Hin]%elem_of_cons; [congruence | by apply Hno].
        -- left. split; [done|].
           intros [Heq|Hin]%elem_of_cons; [congruence | by apply Hno].
      * destruct (split "." rest) as [|w [|w' ws]] eqn:Hs;
          [simpl in Hlen; lia | simpl in Hlen; lia |].
        change (List.last (String a w :: w' :: ws) EmptyString)
          with (List.last (w :: w' :: ws) EmptyString).
        split; [exact Hext|]. right. split_and!.
        -- exists (String a stem). rewrite Hstem at 1. reflexivity.
        -- simpl. lia.
        -- simpl. by right.
Qed.

(** X17: [name.split('.')[-1]], the suffix handed to the temporary file,
    never contains a dot (so it is "jpg", not ".jpg"); the name is that
    extension alone or ends with a dot followed by it; and for a name
    without a dot the extension is the whole name. *)
Theorem extension_is_last_dot_component name :
  (dot ∉ chars (extension name)) /\
  (name = extension name \/ exists stem, name = stem +:+ "." +:+ extension name) /\
  ((dot ∉ chars name) <-> extension name = name).
Proof.
  destruct (extension_shape name) as [Hext [[Hs Hno]|[Hstem [_ Hin]]]].
  - assert (extension name = name) as Heq.
    { unfold extension. by rewrite Hs. }
    split_and!; [exact Hext | by left | done].
  - split_and!; [exact Hext | by right |].
    split; [done|]. intros Heq. by rewrite Heq in Hext.
Qed.

Example extension_examples :
  extension "photo.tar.gz" = "gz" /\ extension "README" = "README" /\
  extension "trailing." = "" /\ extension "" = "".
Proof. vm_compute. by split_and!. Qed.

Section WithLibrary.
Context {encoding : Type}.
Variable target_encodings : option string -> string -> option (list encoding).
Variable compare_faces : list encoding -> encoding -> float -> list bool.

Local Abbreviation match_targets :=
  (FaceApi.match_targets target_encodings compare_faces).
Local Abbreviation target_result :=
  (FaceApi.target_result target_encodings compare_faces).
Local Abbreviation find_matches :=
  (FaceApi.find_matches target_encodings compare_faces).

Lemma match_targets_from user targets results :
  match_targets user targets results =
    (fun l => results ++ l) <$> match_targets user targets [].
Proof.
  revert results. induction targets as [|t rest IH]; intros results.
  - simpl. by rewrite app_nil_r.
  - cbn [FaceApi.match_targets].
    destruct (name t) as [n|]; [|done].
    destruct (target_encodings (url t) (extension n)) as [[|e encs]|];
      [apply IH | | done].
    destruct (any (compare_faces (e :: encs) user 0.6)); [|apply IH].
    rewrite (IH (results ++ [(n, url t)])), (IH ([] ++ [(n, url t)])).
    destruct (match_targets user rest []); simpl; [|done].
    by rewrite <- app_assoc.
Qed.

Lemma match_targets_step user t rest :
  match_targets user (t :: rest) [] =
    target_result user t ≫= match_targets user rest.
Proof.
  unfold FaceApi.target_result. cbn [FaceApi.match_targets].
  destruct (name t) as [n|]; [|done].
  destruct (target_encodings (url t) (extension n)) as [[|e encs]|];
    [done| |done].
  by destruct (any (compare_faces (e :: encs) user 0.6)).
Qed.

Lemma match_targets_mapM user targets :
  match_targets user targets [] =
    (fun ls => concat ls) <$> mapM (target_result user) targets.
Proof.
  induction targets as [|t rest IH]; [done|].
  rewrite match_targets_step. cbn [mapM].
  destruct (target_result user t) as [l|]; [|done]. cbn.
  rewrite match_targets_from, IH.
  by destruct (mapM (target_result user) rest).
Qed.

(** X18: [find_matches] answers 400 "No face found in user image" when the
    user image has no encoding.  Otherwise only the first user encoding is
    compared, and the results are the concatenation, in request order, of
    what each target contributes alone: its [(name, url)] once, or nothing.
    One target that raises (no name, a failed download or load) fails the
    whole request, however many targets matched before it. *)
Theorem find_matches_is_per_target user others targets :
  find_matches [] targets
    = Some (Api.HTTPException 400 "No face found in user image") /\
  find_matches (user :: others) targets
    = (fun ls => Api.Ok (concat ls)) <$> mapM (target_result user) targets /\
  (forall t l, target_result user t = Some l ->
     l = [] \/ exists n, name t = Some n /\ l = [(n, url t)]) /\
  (forall t, target_result user t = None <->
     name t = None \/
     exists n, name t = Some n /\
       target_encodings (url t) (extension n) = None) /\
  (forall t, t ∈ targets -> target_result user t = None ->
     find_matches (user :: others) targets = None).
Proof.
  assert (forall ts, FaceApi.find_matches target_encodings compare_faces
                       (user :: others) ts
                     = (fun ls => Api.Ok (concat ls)) <$>
                         mapM (target_result user) ts) as Hfind.
  { intros ts. unfold FaceApi.find_matches.
    rewrite match_targets_mapM.
    by destruct (mapM (target_result user) ts). }
  split_and!.
  - done.
  - apply Hfind.
  - intros t l. unfold FaceApi.target_result. cbn [FaceApi.match_targets].
    destruct (name t) as [n|]; [|done].
    destruct (target_encodings (url t) (extension n)) as [[|e encs]|];
      [intros [= <-]; by left | | done].
    destruct (any (compare_faces (e :: encs) user 0.6)); intros [= <-];
      [right; by exists n | by left].
  - intros t. unfold FaceApi.target_result. cbn [FaceApi.match_targets].
    destruct (name t) as [n|]; [|naive_solver].
    destruct (target_encodings (url t) (extension n)) as [[|e encs]|] eqn:He;
      [naive_solver| |naive_solver].
    destruct (any (compare_faces (e :: encs) user 0.6)); naive_solver.
  - intros t Hin Hnone. rewrite Hfind.
    rewrite (mapM_None_2 (target_result user) targets); [done|].
    apply Exists_exists. by exists t.
Qed.

End WithLibrary.
End FaceApiFacts.
